(** * Flow validator: loop path tracing, orphan, unused-variable and
      recursive-update checks

    A shallow embedding of the graph checks of
    [sf-flow/hooks/scripts/validate_flow.py] (class [EnhancedFlowValidator]).

    The validator works directly on the parsed XML document: elements are
    ElementTree nodes, the "graph" is the dictionary built by
    [_build_element_map] and the edges are the [targetReference] texts found
    under an element's connectors.  The embedding keeps that shape:
    - an XML node is a tag, an optional text and its children in document
      order;
    - a name is whatever [.text] returns, that is an optional string;
    - Python dictionaries and sets are stdpp's [gmap] and [gset];
    - the recursive path tracer takes a fuel argument; its totality is a
      theorem and the callers run it with enough fuel.
    The interpreter's recursion limit is not part of the model. *)

From Stdlib Require Import Ascii String.
From stdpp Require Import gmap strings list fin_maps pretty.

Local Open Scope string_scope.
Set Warnings "-register-all,-clear-no-such-hyp".

(** ** ElementTree *)

Module ET.

(** A parsed element.  All tags of a Flow document live in the Salesforce
    metadata namespace, which the validator addresses through the prefix
    [sf:]; [tag] holds the local name of an element of that namespace. *)
Inductive xml : Type :=
| Element (tag : string) (text : option string) (children : list xml).

Definition tag (e : xml) : string :=
  match e with Element t _ _ => t end.

Definition text (e : xml) : option string :=
  match e with Element _ x _ => x end.

Definition children (e : xml) : list xml :=
  match e with Element _ _ cs => cs end.

Definition has_tag (t : string) (e : xml) : bool :=
  bool_decide (tag e = t).

(** Children of [e] tagged [t], in document order: one step [sf:t] of a
    path. *)
Definition step (t : string) (e : xml) : list xml :=
  List.filter (has_tag t) (children e).

(** [e.findall('sf:t1/sf:t2/...')]. *)
Fixpoint findall (path : list string) (e : xml) : list xml :=
  match path with
  | [] => [e]
  | t :: rest => flat_map (findall rest) (step t e)
  end.

(** [e.find('sf:t1/sf:t2/...')]: the first match, or [None]. *)
Definition find (path : list string) (e : xml) : option xml :=
  head (findall path e).

(** All strict descendants of [e] in document order. *)
Fixpoint descendants (e : xml) : list xml :=
  match e with
  | Element _ _ cs => flat_map (fun c => c :: descendants c) cs
  end.

(** [e.findall('.//sf:t')]. *)
Definition findall_desc (t : string) (e : xml) : list xml :=
  List.filter (has_tag t) (descendants e).

(** [e.find('.//sf:t')]. *)
Definition find_desc (t : string) (e : xml) : option xml :=
  head (findall_desc t e).

End ET.

Import ET.

(** What [.text] returns: [None] for an element without character data. *)
Abbreviation name := (option string).

(** [x.text if x is not None else d] *)
Definition text_or (d : name) (x : option xml) : name :=
  match x with
  | Some e => text e
  | None => d
  end.

(** ** The element map *)

Definition element_types : list string :=
  [ "assignments"; "decisions"; "recordCreates"; "recordUpdates";
    "recordDeletes"; "recordLookups"; "loops"; "subflows"; "screens";
    "actionCalls"; "waits"; "transforms" ].

(** The inner loop of [_build_element_map]: later elements with the same
    name overwrite earlier ones. *)
Definition add_elements (elem_type : string)
    (element_map : gmap name (string * xml)) (elems : list xml)
    : gmap name (string * xml) :=
  foldl (fun m elem =>
           match find ["name"] elem with
           | Some name_elem => <[text name_elem := (elem_type, elem)]> m
           | None => m
           end) element_map elems.

Definition _build_element_map (root : xml) : gmap name (string * xml) :=
  foldl (fun m elem_type => add_elements elem_type m (findall_desc elem_type root))
        ∅ element_types.

(** ** Path tracing *)

(** The connectors followed from an element: the standard connector, the
    connector of every rule below the element, the default connector.  The
    fault connector is not looked at. *)
Definition target_of (e : xml) : list name :=
  match find ["connector"; "targetReference"] e with
  | Some connector => [text connector]
  | None => []
  end.

Definition connectors (elem : xml) : list name :=
  target_of elem
  ++ flat_map target_of (findall_desc "rules" elem)
  ++ match find ["defaultConnector"; "targetReference"] elem with
     | Some default_connector => [text default_connector]
     | None => []
     end.

(** [for x in l: if f(x): return True] followed by [return False]; [None]
    when a call ran out of fuel. *)
Fixpoint first_true {A} (f : A → option bool) (l : list A) : option bool :=
  match l with
  | [] => Some false
  | x :: rest =>
      match f x with
      | None => None
      | Some true => Some true
      | Some false => first_true f rest
      end
  end.

(** The three tracers [_has_dml_in_path], [_has_soql_in_path] and
    [_has_action_in_path] are the same function up to the test on the
    element type, here [is_op].  [visited] is updated in place before the
    lookup and every recursive call gets [visited.copy()], so each call
    sees the names on its own path only. *)
Fixpoint trace_path (is_op : string → bool) (fuel : nat)
    (current loop_name exit_target : name) (visited : gset name)
    (element_map : gmap name (string * xml)) : option bool :=
  match fuel with
  | O => None
  | S fuel =>
      if decide (current ∈ visited) then Some false
      else if decide (current = loop_name) then Some false
      else if decide (current = exit_target) then Some false
      else
        let visited := visited ∪ {[current]} in
        match element_map !! current with
        | None => Some false
        | Some (elem_type, elem) =>
            if is_op elem_type then Some true
            else first_true
                   (fun next_target =>
                      trace_path is_op fuel next_target loop_name exit_target
                                 visited element_map)
                   (connectors elem)
        end
  end.

Definition is_dml (elem_type : string) : bool :=
  bool_decide (elem_type ∈ ["recordCreates"; "recordUpdates"; "recordDeletes"]).

Definition is_soql (elem_type : string) : bool :=
  bool_decide (elem_type = "recordLookups").

Definition is_action (elem_type : string) : bool :=
  bool_decide (elem_type = "actionCalls").

Definition _has_dml_in_path := trace_path is_dml.
Definition _has_soql_in_path := trace_path is_soql.
Definition _has_action_in_path := trace_path is_action.

(** Fuel that always suffices: every recursive call adds to [visited] a key
    of the map that was not in it. *)
Definition enough_fuel (element_map : gmap name (string * xml)) : nat :=
  S (size element_map).

(** The tracer as the callers use it. *)
Definition run_trace (is_op : string → bool)
    (current loop_name exit_target : name) (visited : gset name)
    (element_map : gmap name (string * xml)) : bool :=
  default false
    (trace_path is_op (enough_fuel element_map) current loop_name exit_target
                visited element_map).

(** ** Operations in loops *)

(** The [for loop in loops] of [_has_dml_in_loops], [_has_soql_in_loops]
    and [_check_action_calls_in_loop]. *)
Fixpoint scan_loops (is_op : string → bool)
    (element_map : gmap name (string * xml)) (loops : list xml) : bool :=
  match loops with
  | [] => false
  | loop :: rest =>
      let loop_name := text_or (Some "") (find ["name"] loop) in
      match find ["nextValueConnector"; "targetReference"] loop with
      | None => scan_loops is_op element_map rest
      | Some next_connector =>
          let exit_target :=
            text_or None (find ["noMoreValuesConnector"; "targetReference"] loop) in
          if run_trace is_op (text next_connector) loop_name exit_target ∅
                       element_map
          then true
          else scan_loops is_op element_map rest
      end
  end.

Definition op_in_loops (is_op : string → bool) (root : xml) : bool :=
  let loops := findall_desc "loops" root in
  match loops with
  | [] => false
  | _ => scan_loops is_op (_build_element_map root) loops
  end.

Definition _has_dml_in_loops : xml → bool := op_in_loops is_dml.
Definition _has_soql_in_loops : xml → bool := op_in_loops is_soql.
Definition _check_action_calls_in_loop : xml → bool := op_in_loops is_action.

(** A reported issue is a dictionary from strings to strings. *)
Abbreviation entry := (list (string * string)).

Definition dml_in_loops_issue : entry :=
  [("severity", "CRITICAL");
   ("message", "❌ DML operations found inside loops - WILL CAUSE BULK FAILURES");
   ("fix", "Move DML outside loops, collect records in collection first")].

Definition soql_in_loops_issue : entry :=
  [("severity", "CRITICAL");
   ("message", "❌ SOQL queries found inside loops - WILL HIT GOVERNOR LIMITS");
   ("fix", "Query records before loop, use collection variable")].

Definition action_in_loops_warning : entry :=
  [("severity", "HIGH");
   ("message", "⚠️ Apex action calls found inside loops - callout limit risk");
   ("suggestion", "Consider bulkifying the action or calling outside the loop")].

(** The final value of [critical_issues] in [_validate_logic_structure]. *)
Definition logic_structure_critical_issues (root : xml) : list entry :=
  (if _has_dml_in_loops root then [dml_in_loops_issue] else [])
  ++ (if _has_soql_in_loops root then [soql_in_loops_issue] else []).

(** The final value of [warnings] in [_validate_logic_structure]. *)
Definition logic_structure_warnings (root : xml) : list entry :=
  if _check_action_calls_in_loop root then [action_in_loops_warning] else [].

(** ** Unused variables *)

(** Python truthiness of [.text]: a non-empty string. *)
Definition truthy (x : name) : option string :=
  match x with
  | Some s => if decide (s = "") then None else Some s
  | None => None
  end.

(** [s.split('.')[0]] *)
Fixpoint before_dot (s : string) : string :=
  match s with
  | EmptyString => EmptyString
  | String c rest => if Ascii.eqb c "." then EmptyString else String c (before_dot rest)
  end.

Definition reference_tags : list string :=
  [ "elementReference"; "inputReference"; "outputReference"; "value" ].

Section UnusedVariables.

(** [re.findall(r'\{!\s*(\w+)', s)], the regular expression engine being
    the interpreter's. *)
Variable re_findall_refs : string → list string.

Definition defined_vars (root : xml) : gset name :=
  list_to_set
    (omap (fun var => text <$> find ["name"] var) (findall_desc "variables" root)).

Definition tag_references (root : xml) (t : string) : list name :=
  omap (fun elem => (fun s => Some (before_dot s)) <$> truthy (text elem))
       (findall_desc t root).

Definition formula_references (root : xml) : list name :=
  flat_map
    (fun formula =>
       match find ["expression"] formula with
       | Some expr =>
           match truthy (text expr) with
           | Some s => Some <$> re_findall_refs s
           | None => []
           end
       | None => []
       end)
    (findall_desc "formulas" root).

Definition referenced_vars (root : xml) : gset name :=
  list_to_set (flat_map (tag_references root) reference_tags)
  ∪ list_to_set (formula_references root).

(** The returned list is [list(unused)]: the members of the set, each once,
    in an order the language does not fix. *)
Definition _check_unused_variables (root : xml) : list name :=
  elements (defined_vars root ∖ referenced_vars root).

(** [", ".join(l)]; [None] stands for the [TypeError] raised when an item
    is not a string. *)
Definition join_names (l : list name) : option string :=
  String.concat ", " <$> mapM id l.

(** The entries that the unused-variable block of [_validate_architecture]
    appends to [advisory]. *)
Definition unused_variables_advisory (root : xml) : option (list entry) :=
  let unused_vars := _check_unused_variables root in
  match unused_vars with
  | [] => Some []
  | _ =>
      shown ← join_names (take 3 unused_vars);
      Some [[("category", "Clean Code");
             ("message", pretty (length unused_vars) +:+ " unused variables: " +:+ shown);
             ("suggestion", "Remove unused variables to reduce clutter")]]
  end.

End UnusedVariables.

(** A model of the expression [\{!\s*(\w+)] on strings of ASCII characters
    (characters above 127 count as neither space nor word characters). *)
Module Re.

Definition is_space (c : ascii) : bool :=
  let n := nat_of_ascii c in
  bool_decide (9 ≤ n ≤ 13)%nat || bool_decide (28 ≤ n ≤ 32)%nat.

Definition is_word (c : ascii) : bool :=
  let n := nat_of_ascii c in
  bool_decide (48 ≤ n ≤ 57)%nat || bool_decide (65 ≤ n ≤ 90)%nat
  || bool_decide (97 ≤ n ≤ 122)%nat || bool_decide (n = 95%nat).

Inductive state :=
| Idle
| Brace                 (* read the opening brace *)
| Spaces                (* read brace, bang and spaces *)
| Word (acc : string).  (* reading the group, [acc] reversed *)

Definition restart (c : ascii) : state :=
  if Ascii.eqb c "{" then Brace else Idle.

(** One character; the result is the next state and the group of a match
    that ends before this character. *)
Definition feed (st : state) (c : ascii) : state * list string :=
  match st with
  | Idle => (restart c, [])
  | Brace => (if Ascii.eqb c "!" then Spaces else restart c, [])
  | Spaces =>
      if is_space c then (Spaces, [])
      else if is_word c then (Word (String c EmptyString), [])
      else (restart c, [])
  | Word acc =>
      if is_word c then (Word (String c acc), [])
      else (restart c, [String.rev acc])
  end.

Fixpoint run (st : state) (s : string) : list string :=
  match s with
  | EmptyString => match st with Word acc => [String.rev acc] | _ => [] end
  | String c rest => let '(st', out) := feed st c in out ++ run st' rest
  end.

Definition findall_refs (s : string) : list string := run Idle s.

End Re.

(** ** Unconnected elements *)

Definition all_elements (root : xml) : gset name :=
  list_to_set
    (flat_map
       (fun elem_type =>
          omap (fun elem => text <$> find ["name"] elem) (findall_desc elem_type root))
       element_types).

Definition start_target (root : xml) : gset name :=
  match find_desc "start" root with
  | Some start =>
      match find ["connector"; "targetReference"] start with
      | Some start_connector => {[ text start_connector ]}
      | None => ∅
      end
  | None => ∅
  end.

Definition connector_targets (root : xml) : gset name :=
  list_to_set
    (omap (fun connector => Some <$> truthy (text connector))
          (findall_desc "targetReference" root)).

Definition connected_elements (root : xml) : gset name :=
  start_target root ∪ connector_targets root.

Definition _check_unconnected_elements (root : xml) : list name :=
  elements (all_elements root ∖ connected_elements root).

(** The entries that the orphaned-element block of [_validate_architecture]
    appends to [advisory]. *)
Definition orphaned_elements_advisory (root : xml) : option (list entry) :=
  let orphaned := _check_unconnected_elements root in
  match orphaned with
  | [] => Some []
  | _ =>
      shown ← join_names (take 3 orphaned);
      Some [[("category", "Clean Code");
             ("message", pretty (length orphaned) +:+ " orphaned elements: " +:+ shown);
             ("suggestion", "Remove or connect orphaned elements")]]
  end.

(** ** Recursive after-save update *)

Definition has_entry_conditions (start : xml) : bool :=
  bool_decide (is_Some (find ["filterLogic"] start))
  || bool_decide (0 < length (findall ["filters"] start))%nat.

(** One iteration of the loop over the record updates; [true] when the
    iteration returns [True]. *)
Definition update_recurses (start : xml) (trigger_obj_name : name) (update : xml)
    : bool :=
  (match find ["object"] update with
   | Some obj => bool_decide (text obj = trigger_obj_name)
   | None => false
   end && negb (has_entry_conditions start))
  || (match find ["inputReference"] update with
      | Some input_ref => bool_decide (text input_ref = Some "$Record")
      | None => false
      end && negb (has_entry_conditions start)).

Definition _check_recursive_after_update (root : xml) : bool :=
  match find_desc "start" root with
  | None => false
  | Some start =>
      match find ["triggerType"] start with
      | None => false
      | Some trigger_type =>
          if decide (text trigger_type = Some "RecordAfterSave") then
            match find ["object"] start with
            | None => false
            | Some trigger_object =>
                existsb (update_recurses start (text trigger_object))
                        (findall_desc "recordUpdates" root)
            end
          else false
      end
  end.

Definition recursive_update_issue : entry :=
  [("severity", "CRITICAL");
   ("message", "❌ INFINITE LOOP RISK: After-save flow updates same object without entry conditions");
   ("fix", "Add entry conditions to prevent recursive triggering")].

(** The entries that the recursive-update block of
    [_validate_error_handling] appends to [critical_issues]. *)
Definition recursive_update_issues (root : xml) : list entry :=
  if _check_recursive_after_update root then [recursive_update_issue] else [].

(** ** Counting elements *)

Definition _count_elements (root : xml) (element_type : string) : nat :=
  length (findall_desc element_type root).

Definition _count_dml_operations (root : xml) : nat :=
  (_count_elements root "recordCreates" + _count_elements root "recordUpdates"
   + _count_elements root "recordDeletes")%nat.

Definition has_fault_connector (element : xml) : bool :=
  bool_decide (is_Some (find ["faultConnector"] element)).

Definition _count_dml_with_fault_paths (root : xml) : nat :=
  foldl (fun count dml_type =>
           foldl (fun count element =>
                    if has_fault_connector element then S count else count)
                 count (findall_desc dml_type root))
        O ["recordCreates"; "recordUpdates"; "recordDeletes"].

Definition _has_transform (root : xml) : bool :=
  bool_decide (0 < _count_elements root "transforms")%nat.

Definition _should_use_transform (root : xml) : bool :=
  bool_decide (0 < _count_elements root "loops")%nat
  && bool_decide (0 < _count_elements root "assignments")%nat.

Definition _estimate_line_count (root : xml) : nat :=
  ((_count_elements root "decisions" + _count_elements root "assignments"
    + _count_elements root "recordCreates" + _count_elements root "recordUpdates"
    + _count_elements root "recordDeletes" + _count_elements root "recordLookups"
    + _count_elements root "subflows" + _count_elements root "loops") * 15)%nat.

Definition _has_formula_in_loops (root : xml) : bool :=
  let formulas := findall_desc "formulas" root in
  match formulas with
  | [] => false
  | _ =>
      let loops := findall_desc "loops" root in
      match loops with
      | [] => false
      | _ => bool_decide (0 < length formulas)%nat
             && bool_decide (0 < length loops)%nat
      end
  end.

(** ** Flow properties *)

Definition _get_text (root : xml) (element_name : string) (default : name) : name :=
  text_or default (find [element_name] root).

Definition _is_autolaunched (root : xml) : bool :=
  bool_decide (_get_text root "processType" (Some "") = Some "AutoLaunchedFlow").

Definition is_true_flag (x : option xml) : bool :=
  match x with
  | Some e => bool_decide (text e = Some "true")
  | None => false
  end.

Definition _has_input_output (root : xml) : bool :=
  existsb (fun var => is_true_flag (find ["isInput"] var)
                      || is_true_flag (find ["isOutput"] var))
          (findall_desc "variables" root).

Definition _is_record_triggered_flow (root : xml) : bool :=
  match find_desc "start" root with
  | Some start =>
      match find ["triggerType"] start with
      | Some trigger_type =>
          let trigger_text := default "" (text trigger_type) in
          bool_decide (trigger_text ∈ ["RecordAfterSave"; "RecordBeforeSave";
                                       "RecordBeforeDelete"])
      | None => false
      end
  | None => false
  end.

Definition _get_trigger_object (root : xml) : name :=
  match find_desc "start" root with
  | Some start =>
      match find ["object"] start with
      | Some obj => text obj
      | None => Some ""
      end
  | None => Some ""
  end.

Definition _check_auto_layout (root : xml) : bool :=
  negb (existsb
          (fun pmv =>
             match find ["name"] pmv with
             | Some n =>
                 bool_decide (text n = Some "CanvasMode")
                 && match find ["value"; "stringValue"] pmv with
                    | Some value => bool_decide (text value = Some "AUTO_LAYOUT_CANVAS")
                    | None => false
                    end
             | None => false
             end)
          (findall_desc "processMetadataValues" root)).

(** ** Record lookups *)

(** [name.text if name is not None else 'Unknown'] *)
Definition element_name (e : xml) : name :=
  text_or (Some "Unknown") (find ["name"] e).

Definition _has_store_output_automatically (root : xml) : list name :=
  element_name
    <$> List.filter (fun lookup => is_true_flag (find ["storeOutputAutomatically"] lookup))
                    (findall_desc "recordLookups" root).

Definition _has_same_object_query (root : xml) : list name :=
  let trigger_object := _get_trigger_object root in
  match truthy trigger_object with
  | None => []
  | Some _ =>
      element_name
        <$> List.filter (fun lookup =>
                           match find ["object"] lookup with
                           | Some obj => bool_decide (text obj = trigger_object)
                           | None => false
                           end)
                        (findall_desc "recordLookups" root)
  end.

Definition _get_lookups_without_filters (root : xml) : list name :=
  element_name
    <$> List.filter (fun lookup =>
                       match findall ["filters"] lookup with
                       | [] => true
                       | _ => false
                       end)
                    (findall_desc "recordLookups" root).

Definition _get_lookups_without_null_check (root : xml) : list name :=
  let lookup_count := _count_elements root "recordLookups" in
  let decision_count := _count_elements root "decisions" in
  if bool_decide (0 < lookup_count)%nat && bool_decide (decision_count < lookup_count)%nat
  then take (lookup_count - decision_count)
            (element_name <$> findall_desc "recordLookups" root)
  else [].

(** ** Logic and structure *)

Record logic_result := {
  logic_score : Z;
  logic_max_score : Z;
  logic_critical_issues : list entry;
  logic_warnings : list entry;
  logic_advisory : list entry
}.

Definition formula_in_loops_advisory : entry :=
  [("category", "Performance");
   ("message", "Formula variables detected with loops - potential CPU impact");
   ("suggestion", "Test with bulk data; complex formulas in loops can cause CPU timeouts")].

Definition decision_complexity_advisory (decision_count : nat) : entry :=
  [("category", "Complexity");
   ("message", pretty decision_count +:+ " decision points - consider simplification");
   ("suggestion", "Break into subflows or use simpler business rules")].

Definition transform_advisory : entry :=
  [("category", "Performance");
   ("message", "Loop with field mapping detected - Transform element recommended");
   ("suggestion", "Transform is 30-50% faster than loops for field mapping")].

(** One [if cond: score -= points; list.append(item)] block: the points
    taken and the items appended. *)
Definition deduct (cond : bool) (points : Z) : Z := if cond then points else 0%Z.
Definition report (cond : bool) (item : entry) : list entry :=
  if cond then [item] else [].

Definition _validate_logic_structure (root : xml) : logic_result :=
  let decision_count := _count_elements root "decisions" in
  let transform := _should_use_transform root && negb (_has_transform root) in
  {| logic_score :=
       Z.max 0 (20 - deduct (_has_dml_in_loops root) 10
                   - deduct (_has_soql_in_loops root) 8
                   - deduct (_check_action_calls_in_loop root) 5
                   - deduct (_has_formula_in_loops root) 2
                   - deduct (bool_decide (5 < decision_count)%nat) 3
                   - deduct transform 5)%Z;
     logic_max_score := 20%Z;
     logic_critical_issues :=
       report (_has_dml_in_loops root) dml_in_loops_issue
       ++ report (_has_soql_in_loops root) soql_in_loops_issue;
     logic_warnings :=
       report (_check_action_calls_in_loop root) action_in_loops_warning;
     logic_advisory :=
       report (_has_formula_in_loops root) formula_in_loops_advisory
       ++ report (bool_decide (5 < decision_count)%nat)
                 (decision_complexity_advisory decision_count)
       ++ report transform transform_advisory |}.

(** ** Architecture and orchestration *)

Record architecture_result := {
  arch_score : Z;
  arch_max_score : Z;
  arch_recommendations : list entry;
  arch_advisory : list entry
}.

Definition no_subflows_advisory : entry :=
  [("category", "Orchestration");
   ("message", "Complex flow with no subflows - consider breaking into components");
   ("suggestion", "Use Parent-Child pattern for better maintainability")].

Definition inline_sections_advisory : entry :=
  [("category", "Orchestration");
   ("message", "Complex record-triggered flow - consider inline section organization");
   ("suggestion", "Use XML comments and clear element naming to organize sections (subflows not supported via XML deployment)")].

Definition large_flow_advisory (line_count : nat) : entry :=
  [("category", "Modularity");
   ("message", "Flow is very large (~" +:+ pretty line_count +:+ " lines) - hard to maintain");
   ("suggestion", "Break into orchestrator + specialized subflows")].

Definition reusability_advisory : entry :=
  [("category", "Reusability");
   ("message", "Autolaunched flow without input/output variables");
   ("suggestion", "Add input/output variables for reusability")].

Definition auto_layout_advisory : entry :=
  [("category", "Canvas");
   ("message", "Flow uses manual positioning instead of Auto-Layout");
   ("suggestion", "Consider enabling Auto-Layout for consistent element arrangement")].

(** Python truthiness of a list. *)
Definition nonempty {A} (l : list A) : bool :=
  match l with
  | [] => false
  | _ => true
  end.

(** [None] stands for the [TypeError] of a [join] on a missing name. *)
Definition _validate_architecture (re_findall_refs : string → list string)
    (root : xml) : option architecture_result :=
  let subflow_count := _count_elements root "subflows" in
  let decision_count := _count_elements root "decisions" in
  let is_record_triggered := _is_record_triggered_flow root in
  let total_elements :=
    (_count_elements root "recordCreates" + _count_elements root "recordUpdates"
     + _count_elements root "recordDeletes" + _count_elements root "recordLookups"
     + decision_count)%nat in
  let no_subflows :=
    bool_decide (subflow_count = 0%nat) && negb is_record_triggered
    && bool_decide (10 < total_elements)%nat in
  let inline_sections :=
    bool_decide (subflow_count = 0%nat) && is_record_triggered
    && bool_decide (15 < total_elements)%nat in
  let line_count := _estimate_line_count root in
  let large := bool_decide (300 < line_count)%nat in
  let closed := _is_autolaunched root && negb (_has_input_output root) in
  unused ← unused_variables_advisory re_findall_refs root;
  orphaned ← orphaned_elements_advisory root;
  Some {| arch_score :=
            Z.max 0 (15 - deduct no_subflows 3 - deduct large 5 - deduct closed 3
                        - deduct (nonempty (_check_unused_variables re_findall_refs root)) 2
                        - deduct (nonempty (_check_unconnected_elements root)) 3)%Z;
          arch_max_score := 15%Z;
          arch_recommendations := [];
          arch_advisory :=
            report no_subflows no_subflows_advisory
            ++ report inline_sections inline_sections_advisory
            ++ report large (large_flow_advisory line_count)
            ++ report closed reusability_advisory
            ++ unused ++ orphaned
            ++ report (_check_auto_layout root) auto_layout_advisory |}.

(** ** Writes between screens *)

(** The [while] loop of [_check_duplicate_dml_between_screens]: the names
    it appends to [issues], in order; [None] when the fuel runs out. *)
Fixpoint follow_connectors (fuel : nat) (current : name) (visited : gset name)
    (element_map : gmap name (string * xml)) : option (list name) :=
  match fuel with
  | O => None
  | S fuel =>
      match truthy current with
      | None => Some []
      | Some _ =>
          if decide (current ∈ visited) then Some []
          else
            match element_map !! current with
            | None => Some []
            | Some (elem_type, elem) =>
                if bool_decide (elem_type = "screens") then Some []
                else
                  let found :=
                    if is_dml elem_type
                    then match find ["name"] elem with
                         | Some n => [text n]
                         | None => []
                         end
                    else [] in
                  let next :=
                    text_or None (find ["connector"; "targetReference"] elem) in
                  rest ← follow_connectors fuel next (visited ∪ {[current]})
                                           element_map;
                  Some (found ++ rest)%list
            end
      end
  end.

(** The loop as the caller runs it. *)
Definition run_follow (current : name) (element_map : gmap name (string * xml))
    : list name :=
  default [] (follow_connectors (enough_fuel element_map) current ∅ element_map).

(** The body of [for screen in screens]. *)
Definition after_screen (element_map : gmap name (string * xml)) (screen : xml)
    : list name :=
  match find ["name"] screen with
  | None => []
  | Some _ =>
      match find ["connector"; "targetReference"] screen with
      | None => []
      | Some connector => run_follow (text connector) element_map
      end
  end.

Definition _check_duplicate_dml_between_screens (root : xml) : list name :=
  let screens := findall_desc "screens" root in
  if bool_decide (length screens < 2)%nat then []
  else
    let element_map := _build_element_map root in
    elements (list_to_set (C := gset name)
                          (flat_map (after_screen element_map) screens)).

(** ** Hardcoded identifiers and addresses *)

Section Hardcoded.

(** [re.findall(id_pattern, s)] and [re.findall(url_pattern, s)]; whether
    one of the allowed patterns matches at the start of an address. *)
Variable re_findall_ids : string → list string.
Variable re_findall_urls : string → list string.
Variable re_match_allowed : string → bool.

(** [root.iter()]: the element and its descendants in document order. *)
Definition iter (root : xml) : list xml := root :: descendants root.

(** The parsed elements have no [getparent], so the search for a name stops
    at the element that carries the text. *)
Definition id_hits (elem : xml) : list name :=
  match truthy (text elem) with
  | Some s =>
      match re_findall_ids s with
      | [] => []
      | _ =>
          match find ["name"] elem with
          | Some name_elem => [text name_elem]
          | None => [Some "Unknown element"]
          end
      end
  | None => []
  end.

Definition _check_hardcoded_ids (root : xml) : list name :=
  elements (list_to_set (C := gset name) (flat_map id_hits (iter root))).



End Hardcoded.

(** * Specification notions *)

(** ** Paths inside a loop body *)

Section BodyPaths.

Context (is_op : string → bool) (element_map : gmap name (string * xml)).
Context (loop_name exit_target : name).

(** [leads_to_op visited k n]: there is a path of [k] edges that starts at
    the element named [n], follows connectors (standard, rule and default
    connectors), ends at an element whose type satisfies [is_op], and on
    which no name is the loop, its exit target or a member of [visited]. *)
Inductive leads_to_op (visited : gset name) : nat → name → Prop :=
| leads_here n elem_type elem :
    n ∉ visited → n ≠ loop_name → n ≠ exit_target →
    element_map !! n = Some (elem_type, elem) →
    is_op elem_type = true →
    leads_to_op visited 0 n
| leads_step k n elem_type elem next_target :
    n ∉ visited → n ≠ loop_name → n ≠ exit_target →
    element_map !! n = Some (elem_type, elem) →
    next_target ∈ connectors elem →
    leads_to_op visited k next_target →
    leads_to_op visited (S k) n.

End BodyPaths.

(** The names of the map that a call of the tracer may still enter. *)
Definition unvisited (element_map : gmap name (string * xml))
    (visited : gset name) : gset name :=
  dom element_map ∖ visited.

(** ** Loops that make a detector fire *)

(** The two sentinels that [scan_loops] reads off a loop. *)
Definition loop_name_of (loop : xml) : name :=
  text_or (Some "") (find ["name"] loop).

Definition exit_target_of (loop : xml) : name :=
  text_or None (find ["noMoreValuesConnector"; "targetReference"] loop).

(** The test that [scan_loops] applies to one loop. *)
Definition loop_offends (is_op : string → bool)
    (element_map : gmap name (string * xml)) (loop : xml) : bool :=
  match find ["nextValueConnector"; "targetReference"] loop with
  | None => false
  | Some next_connector =>
      run_trace is_op (text next_connector) (loop_name_of loop)
                (exit_target_of loop) ∅ element_map
  end.

Definition offending_loops (is_op : string → bool) (root : xml) : list xml :=
  List.filter (loop_offends is_op (_build_element_map root))
              (findall_desc "loops" root).

(** ** Fault connectors *)

(** The element without its fault connectors. *)
Definition without_faults (e : xml) : xml :=
  Element (tag e) (text e)
          (List.filter (fun c => negb (has_tag "faultConnector" c)) (children e)).

(** No fault connector of the element carries decision rules. *)
Definition plain_faults (e : xml) : bool :=
  forallb (fun c => negb (has_tag "faultConnector" c)
                    || match findall_desc "rules" c with [] => true | _ => false end)
          (children e).

(** The element map without any fault connector. *)
Definition drop_fault_paths (element_map : gmap name (string * xml))
    : gmap name (string * xml) :=
  prod_map id without_faults <$> element_map.

(** ** Writes on the trigger object *)

(** An element whose object is the trigger object or whose input is the
    triggering record. *)
Definition targets_trigger (trigger_obj_name : name) (e : xml) : bool :=
  match find ["object"] e with
  | Some obj => bool_decide (text obj = trigger_obj_name)
  | None => false
  end
  || match find ["inputReference"] e with
     | Some input_ref => bool_decide (text input_ref = Some "$Record")
     | None => false
     end.

(** Some write element (create, update or delete) targets the trigger
    object of the document. *)
Definition write_on_trigger (root : xml) : bool :=
  match find_desc "start" root with
  | Some start =>
      match find ["object"] start with
      | Some trigger_object =>
          existsb (fun e => is_dml (tag e) && targets_trigger (text trigger_object) e)
                  (descendants root)
      | None => false
      end
  | None => false
  end.

Definition entry_filter (root : xml) : bool :=
  match find_desc "start" root with
  | Some start => has_entry_conditions start
  | None => false
  end.

(** ** Growing a document *)

(** The document with one more element at the end. *)
Definition add_child (root c : xml) : xml :=
  Element (tag root) (text root) (children root ++ [c]).

(** An element of type [elem_type] that has a name and nothing else. *)
Definition isolated (elem_type : string) (n : name) : xml :=
  Element elem_type None [Element "name" n []].

(** ** Documents used in the examples *)

Module Docs.

Definition leaf (t s : string) : xml := Element t (Some s) [].

(** An element of type [ty] named [n]. *)
Definition node (ty n : string) (kids : list xml) : xml :=
  Element ty None (leaf "name" n :: kids).

(** A connector [c] to the element named [t]. *)
Definition conn (c t : string) : xml :=
  Element c None [leaf "targetReference" t].

Definition flow (kids : list xml) : xml := Element "Flow" None kids.

(** The loop collects in an assignment that returns to the loop; the write
    sits on the exit path. *)
Definition collecting_loop : xml :=
  node "loops" "L" [conn "nextValueConnector" "A";
                    conn "noMoreValuesConnector" "W"].

Definition write_after_loop : xml :=
  flow [ collecting_loop;
         node "assignments" "A" [conn "connector" "L"];
         node "recordCreates" "W" [] ].

(** Two loops, each with a write in its body. *)
Definition two_loops_with_writes : xml :=
  flow [ node "loops" "L1" [conn "nextValueConnector" "W1"];
         node "recordCreates" "W1" [conn "connector" "L1"];
         node "loops" "L2" [conn "nextValueConnector" "W2"];
         node "recordUpdates" "W2" [conn "connector" "L2"] ].

(** The assignment in the loop body reaches the write through its fault
    connector only. *)
Definition write_on_fault_path : xml :=
  flow [ node "loops" "L" [conn "nextValueConnector" "A"];
         node "assignments" "A" [conn "connector" "L"; conn "faultConnector" "W"];
         node "recordCreates" "W" [] ].

(** Two decisions that point at each other, below a loop. *)
Definition decision_cycle : xml :=
  flow [ node "loops" "L" [conn "nextValueConnector" "D1"];
         node "decisions" "D1" [Element "rules" None [conn "connector" "D2"];
                                conn "defaultConnector" "D2"];
         node "decisions" "D2" [Element "rules" None [conn "connector" "D1"];
                                conn "defaultConnector" "D1"] ].

(** A decision whose first branch runs into the node that the second branch
    needs to cross to reach the write. *)
Definition diverging_branches : xml :=
  flow [ node "loops" "L" [conn "nextValueConnector" "D"];
         node "decisions" "D" [Element "rules" None [conn "connector" "A"];
                               conn "defaultConnector" "B"];
         node "assignments" "A" [conn "connector" "C"];
         node "assignments" "B" [conn "connector" "C"];
         node "decisions" "C" [Element "rules" None [conn "connector" "A"];
                               conn "defaultConnector" "W"];
         node "recordDeletes" "W" [] ].

(** The body entry of the loop is its exit target, a write. *)
Definition short_loop : xml :=
  node "loops" "L" [conn "nextValueConnector" "W";
                    conn "noMoreValuesConnector" "W"].

Definition body_is_exit : xml :=
  flow [ short_loop; node "recordCreates" "W" [conn "connector" "L"] ].

(** A loop without body entry, before a loop with a write in its body. *)
Definition empty_loop : xml :=
  node "loops" "L0" [conn "noMoreValuesConnector" "L1"].

Definition writing_loop : xml :=
  node "loops" "L1" [conn "nextValueConnector" "W"].

Definition loop_without_body : xml :=
  flow [ empty_loop; writing_loop; node "recordCreates" "W" [] ].

(** After-save flows on [Case]. *)
Definition after_save (filters kids : list xml) : xml :=
  flow (Element "start" None
          ([leaf "triggerType" "RecordAfterSave"; leaf "object" "Case"] ++ filters)
        :: kids).

Definition update_case : xml := node "recordUpdates" "U" [leaf "object" "Case"].
Definition create_case : xml := node "recordCreates" "N" [leaf "object" "Case"].
Definition a_filter : xml := Element "filters" None [leaf "field" "Status"].

(** Start, one connected element and two elements nothing points to. *)
Definition two_orphans : xml :=
  flow [ Element "start" None [conn "connector" "A"];
         node "assignments" "A" [];
         node "assignments" "B" [];
         node "screens" "C" [] ].

(** Variables [A], [B], [C]; only [A] is referenced. *)
Definition three_variables : xml :=
  flow [ node "variables" "A" [];
         node "variables" "B" [];
         node "variables" "C" [];
         node "assignments" "Set" [leaf "elementReference" "A.Name"] ].

End Docs.

(** ** The insertions behind the element map *)

(** The keys and values that [_build_element_map] writes, in the order in
    which it writes them. *)
Definition named_elements (root : xml) : list (name * (string * xml)) :=
  flat_map
    (fun elem_type =>
       omap (fun elem =>
               (fun name_elem => (text name_elem, (elem_type, elem)))
                 <$> find ["name"] elem)
            (findall_desc elem_type root))
    element_types.

(** ** Chains of standard connectors *)

(** [chain_to m visited j k k']: following the standard connector [j] times
    from the element named [k] leads to the element named [k']; every
    element on the way, both ends included, is known, is no screen, has a
    non-empty name and is not in [visited]. *)
Inductive chain_to (element_map : gmap name (string * xml))
    (visited : gset name) : nat → name → name → Prop :=
| chain_here k elem_type elem :
    is_Some (truthy k) → k ∉ visited →
    element_map !! k = Some (elem_type, elem) → elem_type ≠ "screens" →
    chain_to element_map visited 0 k k
| chain_step j k elem_type elem k' :
    is_Some (truthy k) → k ∉ visited →
    element_map !! k = Some (elem_type, elem) → elem_type ≠ "screens" →
    chain_to element_map visited j
             (text_or None (find ["connector"; "targetReference"] elem)) k' →
    chain_to element_map visited (S j) k k'.

(** The write element named [n] sits on the chain that starts at [start]. *)
Definition write_on_chain (element_map : gmap name (string * xml))
    (visited : gset name) (start n : name) : Prop :=
  ∃ j key elem_type elem name_elem,
    chain_to element_map visited j start key
    ∧ element_map !! key = Some (elem_type, elem)
    ∧ is_dml elem_type = true
    ∧ find ["name"] elem = Some name_elem
    ∧ text name_elem = n.

(** ** More documents for the examples *)

Module MoreDocs.

Import Docs.

(** Two elements share the name [X]; the screen comes later in the order of
    the element types. *)
Definition shared_name : xml :=
  flow [ node "screens" "X" []; node "assignments" "X" [] ].

(** A screen, a write, an assignment that returns to the write, and a
    second screen that is never reached. *)
Definition write_cycle_after_screen : xml :=
  flow [ node "screens" "S1" [conn "connector" "W"];
         node "recordUpdates" "W" [conn "connector" "A"];
         node "assignments" "A" [conn "connector" "W"];
         node "screens" "S2" [] ].

(** A write before the second screen and a write after it. *)
Definition writes_around_screen : xml :=
  flow [ node "screens" "S1" [conn "connector" "W1"];
         node "recordCreates" "W1" [conn "connector" "S2"];
         node "screens" "S2" [conn "connector" "W2"];
         node "recordDeletes" "W2" [] ].

(** Three lookups and one decision. *)
Definition three_lookups : xml :=
  flow [ node "recordLookups" "Get_A" [leaf "storeOutputAutomatically" "true"];
         node "recordLookups" "Get_B" [Element "filters" None []];
         Element "recordLookups" None [];
         node "decisions" "D" [] ].

(** Two writes, one of them with a fault connector. *)
Definition one_fault_path : xml :=
  flow [ node "recordCreates" "W1" [conn "faultConnector" "F"];
         node "recordUpdates" "W2" [];
         node "assignments" "F" [] ].

(** An outer loop whose body is an inner loop with a write in its body. *)
Definition nested_loops : xml :=
  flow [ node "loops" "Outer" [conn "nextValueConnector" "Inner"];
         node "loops" "Inner" [conn "nextValueConnector" "W";
                               conn "noMoreValuesConnector" "Outer"];
         node "recordCreates" "W" [conn "connector" "Inner"] ].

(** A text value with an identifier in it, below an assignment. *)
Definition with_identifier : xml :=
  flow [ node "assignments" "Set_Owner"
           [Element "assignmentItems" None
              [Element "value" None [leaf "stringValue" "005000000000001AAA"]]] ].

End MoreDocs.

(** * Properties *)

Local Open Scope nat_scope.
Local Open Scope list_scope.

(** ** The early-return loop *)

Section FirstTrue.

Context {A : Type}.
Implicit Types (f g : A → option bool) (l : list A).

Lemma first_true_witness f l :
  first_true f l = Some true → ∃ x, x ∈ l ∧ f x = Some true.
Proof.
  induction l as [|x l IH]; simpl; [done|].
  destruct (f x) as [[|]|] eqn:Hx; intros H; try done.
  - exists x. split; [left | done].
  - destruct (IH H) as (y & Hy & Hfy). exists y. split; [by right | done].
Qed.

Lemma first_true_is_Some f l :
  (∀ x, x ∈ l → is_Some (f x)) → is_Some (first_true f l).
Proof.
  induction l as [|x l IH]; simpl; intros Hall; [by eexists|].
  destruct (Hall x) as [[|] ->]; [left | by eexists |].
  apply IH. intros y Hy. apply Hall. by right.
Qed.

Lemma first_true_found f l x :
  (∀ y, y ∈ l → is_Some (f y)) → x ∈ l → f x = Some true →
  first_true f l = Some true.
Proof.
  induction l as [|y l IH]; simpl; intros Hall Hin Hx.
  - by apply elem_of_nil in Hin.
  - destruct (Hall y) as [[|] Hy]; [left | by rewrite Hy |].
    rewrite Hy. apply elem_of_cons in Hin as [->|Hin]; [congruence|].
    apply IH; [|done..]. intros z Hz. apply Hall. by right.
Qed.

Lemma first_true_ext f g l :
  (∀ x, x ∈ l → f x = g x) → first_true f l = first_true g l.
Proof.
  induction l as [|x l IH]; simpl; intros Heq; [done|].
  rewrite <- (Heq x) by left.
  destruct (f x) as [[|]|]; try done.
  apply IH. intros y Hy. apply Heq. by right.
Qed.

(** When every call returns, the loop is [existsb] on the results. *)
Lemma first_true_existsb f l (h : A → bool) :
  (∀ x, x ∈ l → f x = Some (h x)) → first_true f l = Some (existsb h l).
Proof.
  induction l as [|x l IH]; simpl; intros Heq; [done|].
  rewrite (Heq x) by left.
  destruct (h x); [done|]. simpl. apply IH. intros y Hy. apply Heq. by right.
Qed.

End FirstTrue.

(** ** The tracer: termination *)

Section Tracer.

Context (is_op : string → bool) (element_map : gmap name (string * xml)).
Context (loop_name exit_target : name).

Local Abbreviation trace fuel current visited :=
  (trace_path is_op fuel current loop_name exit_target visited element_map).
Local Abbreviation leads := (leads_to_op is_op element_map loop_name exit_target).

Local Abbreviation unvisited := (unvisited element_map).

Lemma trace_path_S fuel current visited :
  trace (S fuel) current visited
  = if decide (current ∈ visited) then Some false
    else if decide (current = loop_name) then Some false
    else if decide (current = exit_target) then Some false
    else match element_map !! current with
         | None => Some false
         | Some (elem_type, elem) =>
             if is_op elem_type then Some true
             else first_true
                    (fun next_target =>
                       trace fuel next_target (visited ∪ {[current]}))
                    (connectors elem)
         end.
Proof. reflexivity. Qed.

Lemma unvisited_shrinks visited current v :
  current ∉ visited → element_map !! current = Some v →
  size (unvisited (visited ∪ {[current]})) < size (unvisited visited).
Proof.
  intros Hnot Hin. apply subset_size.
  assert (current ∈ dom element_map) as Hdom by (apply elem_of_dom; eauto).
  unfold unvisited. clear Hin. set_solver.
Qed.

Lemma unvisited_bound visited : size (unvisited visited) ≤ size element_map.
Proof.
  rewrite <- (size_dom (D := gset name)). apply subseteq_size.
  unfold unvisited. set_solver.
Qed.

Lemma trace_path_is_Some fuel : ∀ current visited,
  size (unvisited visited) < fuel → is_Some (trace fuel current visited).
Proof.
  induction fuel as [|fuel IH]; intros current visited Hfuel; [lia|].
  simpl. repeat case_decide; try by eexists.
  destruct (element_map !! current) as [[elem_type elem]|] eqn:Hcur;
    [|by eexists].
  destruct (is_op elem_type); [by eexists|].
  apply first_true_is_Some. intros next _. apply IH.
  pose proof (unvisited_shrinks visited current _ ltac:(done) Hcur). lia.
Qed.

(** More fuel does not change a result. *)
Lemma trace_path_more_fuel fuel : ∀ fuel' current visited b,
  fuel ≤ fuel' → trace fuel current visited = Some b →
  trace fuel' current visited = Some b.
Proof.
  induction fuel as [|fuel IH]; intros fuel' current visited b Hle; [done|].
  destruct fuel' as [|fuel']; [lia|]. simpl.
  repeat case_decide; try done.
  destruct (element_map !! current) as [[elem_type elem]|]; [|done].
  destruct (is_op elem_type); [done|].
  generalize (connectors elem). intros l. induction l as [|x l IHl]; [done|].
  simpl. destruct (trace fuel x _) as [[|]|] eqn:Hx; try done.
  - by rewrite (IH fuel' _ _ _ ltac:(lia) Hx).
  - rewrite (IH fuel' _ _ _ ltac:(lia) Hx). apply IHl.
Qed.

Lemma run_trace_spec fuel current visited :
  size (unvisited visited) < fuel →
  trace fuel current visited
  = Some (run_trace is_op current loop_name exit_target visited element_map).
Proof.
  intros Hfuel. unfold run_trace.
  destruct (trace_path_is_Some fuel current visited Hfuel) as [b Hb].
  destruct (trace_path_is_Some (enough_fuel element_map) current visited) as [b' Hb'].
  { pose proof (unvisited_bound visited). unfold enough_fuel. lia. }
  rewrite Hb, Hb'. simpl. f_equal.
  destruct (decide (fuel ≤ enough_fuel element_map)) as [Hle|Hle].
  - rewrite (trace_path_more_fuel _ _ _ _ _ Hle Hb) in Hb'. congruence.
  - assert (enough_fuel element_map ≤ fuel) as Hge by lia.
    rewrite (trace_path_more_fuel _ _ _ _ _ Hge Hb') in Hb. congruence.
Qed.

(** The recursion of the source, on the total tracer. *)
Lemma run_trace_unfold current visited :
  run_trace is_op current loop_name exit_target visited element_map
  = if decide (current ∈ visited) then false
    else if decide (current = loop_name) then false
    else if decide (current = exit_target) then false
    else match element_map !! current with
         | None => false
         | Some (elem_type, elem) =>
             if is_op elem_type then true
             else existsb
                    (fun next_target =>
                       run_trace is_op next_target loop_name exit_target
                                 (visited ∪ {[current]}) element_map)
                    (connectors elem)
         end.
Proof.
  pose proof (unvisited_bound visited) as Hb.
  assert (Some (run_trace is_op current loop_name exit_target visited element_map)
          = trace (S (S (size element_map))) current visited) as Heq.
  { symmetry. apply run_trace_spec. lia. }
  rewrite trace_path_S in Heq. repeat case_decide; try congruence.
  destruct (element_map !! current) as [[elem_type elem]|] eqn:Hcur;
    [|congruence].
  destruct (is_op elem_type); [congruence|].
  rewrite (first_true_existsb _ _
             (fun next_target =>
                run_trace is_op next_target loop_name exit_target
                          (visited ∪ {[current]}) element_map)) in Heq.
  - congruence.
  - intros next _. apply run_trace_spec.
    pose proof (unvisited_shrinks visited current _ ltac:(done) Hcur). lia.
Qed.

(** ** The tracer: what it finds *)

Lemma leads_mono visited visited' k n :
  visited ⊆ visited' → leads visited' k n → leads visited k n.
Proof.
  intros Hsub Hl. induction Hl.
  - eapply leads_here; eauto.
  - eapply leads_step; eauto.
Qed.

(** A path either avoids [x] or contains a shorter path that starts at
    [x]. *)
Lemma leads_split x visited k n :
  leads visited k n →
  leads (visited ∪ {[x]}) k n ∨ ∃ j, j ≤ k ∧ leads visited j x.
Proof.
  intros Hl. induction Hl as [n ty e Hv Hl He Hm Hop
                             |k n ty e next Hv Hl He Hm Hin Hrest IH].
  - destruct (decide (n = x)) as [->|Hne].
    + right. exists 0. split; [lia|]. eapply leads_here; eauto.
    + left. eapply leads_here; eauto. set_solver.
  - destruct (decide (n = x)) as [->|Hne].
    + right. exists (S k). split; [lia|]. eapply leads_step; eauto.
    + destruct IH as [IH|(j & Hj & IH)].
      * left. eapply leads_step; eauto. set_solver.
      * right. exists j. split; [lia | done].
Qed.

Lemma trace_path_sound fuel : ∀ current visited,
  trace fuel current visited = Some true → ∃ k, leads visited k current.
Proof.
  induction fuel as [|fuel IH]; intros current visited; [done|].
  rewrite trace_path_S. repeat case_decide; try done.
  destruct (element_map !! current) as [[elem_type elem]|] eqn:Hcur; [|done].
  destruct (is_op elem_type) eqn:Hop.
  - intros _. exists 0. eapply leads_here; eauto.
  - intros Hft. apply first_true_witness in Hft as (next & Hin & Hnext).
    apply IH in Hnext as [k Hk]. exists (S k).
    eapply leads_step; eauto. eapply leads_mono; [|done]. set_solver.
Qed.

Lemma trace_path_complete k : ∀ fuel current visited,
  size (unvisited visited) < fuel → leads visited k current →
  trace fuel current visited = Some true.
Proof.
  induction (lt_wf k) as [k _ IH]. intros fuel current visited Hfuel Hl.
  destruct fuel as [|fuel]; [lia|].
  inversion Hl as [n ty e Hv Hlp He Hm Hop
                  |k' n ty e next Hv Hlp He Hm Hin Hrest]; subst.
  - rewrite trace_path_S. repeat case_decide; try done. by rewrite Hm, Hop.
  - destruct (leads_split current _ _ _ Hrest) as [Hav|(j & Hj & Hback)].
    + rewrite trace_path_S. repeat case_decide; try done. rewrite Hm.
      destruct (is_op ty); [done|].
      pose proof (unvisited_shrinks visited current _ Hv Hm).
      apply (first_true_found _ _ next); [|done|].
      * intros y _. apply trace_path_is_Some. lia.
      * apply (IH k'); [lia | lia | done].
    + apply (IH j); [lia | done | done].
Qed.

Lemma run_trace_true current visited :
  run_trace is_op current loop_name exit_target visited element_map = true
  ↔ ∃ k, leads visited k current.
Proof.
  pose proof (unvisited_bound visited) as Hb.
  pose proof (run_trace_spec (enough_fuel element_map) current visited
                ltac:(unfold enough_fuel; lia)) as Hspec.
  split.
  - intros Htrue. rewrite Htrue in Hspec. by eapply trace_path_sound.
  - intros [k Hk].
    rewrite (trace_path_complete k) in Hspec; [congruence| |done].
    unfold enough_fuel. lia.
Qed.

End Tracer.

(** ** Scanning the loops *)

Lemma scan_loops_cons is_op element_map loop rest :
  scan_loops is_op element_map (loop :: rest)
  = loop_offends is_op element_map loop || scan_loops is_op element_map rest.
Proof.
  simpl. unfold loop_offends, loop_name_of, exit_target_of.
  destruct (find ["nextValueConnector"; "targetReference"] loop); [|done].
  by destruct (run_trace _ _ _ _ _ _).
Qed.

Lemma scan_loops_existsb is_op element_map loops :
  scan_loops is_op element_map loops
  = existsb (loop_offends is_op element_map) loops.
Proof.
  induction loops as [|loop rest IH]; [done|].
  rewrite scan_loops_cons, IH. done.
Qed.

Lemma op_in_loops_offending is_op root :
  op_in_loops is_op root = true ↔ offending_loops is_op root ≠ [].
Proof.
  unfold op_in_loops, offending_loops.
  destruct (findall_desc "loops" root) as [|loop rest] eqn:Hloops; [done|].
  rewrite scan_loops_existsb.
  generalize (loop :: rest). intros l.
  induction l as [|x l IH]; simpl; [done|].
  destruct (loop_offends _ _ x); simpl; [done | apply IH].
Qed.

(** ** Fault connectors are not connectors *)

Lemma step_without_faults t e :
  t ≠ "faultConnector" → step t (without_faults e) = step t e.
Proof.
  intros Ht. unfold step, without_faults. simpl.
  induction (children e) as [|c cs IH]; simpl; [done|].
  destruct (has_tag "faultConnector" c) eqn:Hfault; simpl.
  - assert (has_tag t c = false) as ->; [|done].
    unfold has_tag in *. apply bool_decide_eq_true in Hfault.
    apply bool_decide_eq_false. congruence.
  - by rewrite IH.
Qed.

Lemma find_without_faults t path e :
  t ≠ "faultConnector" → find (t :: path) (without_faults e) = find (t :: path) e.
Proof. intros Ht. unfold find. simpl. by rewrite step_without_faults. Qed.

Lemma rules_without_faults e :
  plain_faults e = true →
  findall_desc "rules" (without_faults e) = findall_desc "rules" e.
Proof.
  unfold plain_faults, findall_desc, without_faults. destruct e as [t x cs]. simpl.
  induction cs as [|c cs IH]; simpl; [done|].
  intros [Hc Hcs]%andb_prop. rewrite !List.filter_app. simpl.
  destruct (has_tag "faultConnector" c) eqn:Hfault; simpl in *.
  - rewrite IH by done.
    assert (has_tag "rules" c = false) as ->.
    { unfold has_tag in *. apply bool_decide_eq_true in Hfault.
      apply bool_decide_eq_false. congruence. }
    unfold findall_desc in Hc.
    destruct (List.filter (has_tag "rules") (descendants c)); [done|done].
  - rewrite !List.filter_app. simpl. by rewrite IH.
Qed.

Lemma connectors_without_faults e :
  plain_faults e = true → connectors (without_faults e) = connectors e.
Proof.
  intros Hplain. unfold connectors, target_of.
  rewrite !find_without_faults by done.
  by rewrite rules_without_faults.
Qed.

(** ** The tracer reads types and connectors only *)

Section TracerExt.

Context (is_op : string → bool) (m1 m2 : gmap name (string * xml)).
Context (loop_name exit_target : name).

Hypothesis same_edges :
  ∀ n, prod_map id connectors <$> m1 !! n = prod_map id connectors <$> m2 !! n.

Lemma trace_path_ext fuel : ∀ current visited,
  trace_path is_op fuel current loop_name exit_target visited m1
  = trace_path is_op fuel current loop_name exit_target visited m2.
Proof.
  induction fuel as [|fuel IH]; intros current visited; [done|].
  simpl. repeat case_decide; try done.
  pose proof (same_edges current) as Hcur.
  destruct (m1 !! current) as [[ty1 e1]|], (m2 !! current) as [[ty2 e2]|];
    simpl in Hcur; try done.
  injection Hcur as -> Hconn. destruct (is_op ty2); [done|].
  rewrite Hconn. apply first_true_ext. intros next _. apply IH.
Qed.

Lemma same_edges_size : size m1 = size m2.
Proof.
  rewrite <- !(size_dom (D := gset name)). f_equal. apply set_eq. intros n.
  rewrite !elem_of_dom. pose proof (same_edges n) as Hn.
  destruct (m1 !! n), (m2 !! n); simpl in Hn; try done; split; eauto.
Qed.

Lemma run_trace_ext current visited :
  run_trace is_op current loop_name exit_target visited m1
  = run_trace is_op current loop_name exit_target visited m2.
Proof.
  unfold run_trace, enough_fuel. by rewrite trace_path_ext, same_edges_size.
Qed.

End TracerExt.

Lemma drop_fault_paths_edges element_map :
  map_Forall (fun _ v => plain_faults v.2 = true) element_map →
  ∀ n, prod_map id connectors <$> element_map !! n
       = prod_map id connectors <$> drop_fault_paths element_map !! n.
Proof.
  intros Hplain n. unfold drop_fault_paths. rewrite lookup_fmap.
  destruct (element_map !! n) as [[ty e]|] eqn:Hn; [|done]. simpl.
  by rewrite (connectors_without_faults e (Hplain _ _ Hn)).
Qed.

(** ** Exit path, body path *)

(** C1: Exit-path exemption.  When no path inside the body of a loop (a
    path from the target of [nextValueConnector] that stays clear of the
    loop and of the target of [noMoreValuesConnector]) leads to a write, the
    write detector does not fire on that loop, whatever the exit path leads
    to; and a call of the tracer on the exit target itself answers [False]
    at once, whatever the element map holds. *)
Theorem exit_path_exemption element_map loop rest next_connector :
  find ["nextValueConnector"; "targetReference"] loop = Some next_connector →
  (∀ k, ¬ leads_to_op is_dml element_map (loop_name_of loop)
            (exit_target_of loop) ∅ k (text next_connector)) →
  scan_loops is_dml element_map (loop :: rest)
  = scan_loops is_dml element_map rest
  ∧ ∀ fuel visited,
      _has_dml_in_path (S fuel) (exit_target_of loop) (loop_name_of loop)
                       (exit_target_of loop) visited element_map
      = Some false.
Proof.
  intros Hnext Hbody. split.
  - rewrite scan_loops_cons. unfold loop_offends. rewrite Hnext.
    destruct (run_trace _ _ _ _ _ _) eqn:Hrun; [|done].
    apply run_trace_true in Hrun as [k Hk]. by destruct (Hbody k).
  - intros fuel visited. unfold _has_dml_in_path. rewrite trace_path_S.
    repeat case_decide; done.
Qed.

Lemma exit_path_exemption_witness :
  _build_element_map Docs.write_after_loop !! Some "W"
  = Some ("recordCreates", Docs.node "recordCreates" "W" [])
  ∧ scan_loops is_dml (_build_element_map Docs.write_after_loop)
               [Docs.collecting_loop] = false
  ∧ _has_dml_in_path 1 (Some "W") (Some "L") (Some "W") ∅
                     (_build_element_map Docs.write_after_loop) = Some false.
Proof.
  split; [by vm_compute|].
  destruct (exit_path_exemption (_build_element_map Docs.write_after_loop)
              Docs.collecting_loop [] (Docs.leaf "targetReference" "A")
              eq_refl) as [Hscan Hexit].
  - intros k Hk.
    assert (run_trace is_dml (Some "A") (Some "L") (Some "W") ∅
                      (_build_element_map Docs.write_after_loop) = true) as Hrun.
    { apply run_trace_true. by exists k. }
    vm_compute in Hrun. discriminate Hrun.
  - split; [exact Hscan | exact (Hexit 0 ∅)].
Defined.

(** C2: Completeness of the walk.  From any start, with an empty visited
    set, the tracer answers [True] exactly when some path along standard,
    rule and default connectors leads from the start to an element of the
    wanted type without touching the loop or its exit target, and [False]
    exactly when there is none.  Each branch works on its own copy of the
    visited set, so what one branch has explored does not hide anything
    from its siblings. *)
Theorem walker_complete is_op element_map loop_name exit_target start extra :
  let result :=
    trace_path is_op (enough_fuel element_map + extra) start loop_name
               exit_target ∅ element_map in
  let path := ∃ k, leads_to_op is_op element_map loop_name exit_target ∅ k start in
  (result = Some true ↔ path) ∧ (result = Some false ↔ ¬ path).
Proof.
  intros result path. subst result path.
  rewrite (run_trace_spec is_op element_map loop_name exit_target).
  2:{ pose proof (unvisited_bound element_map ∅). unfold enough_fuel. lia. }
  rewrite <- run_trace_true.
  destruct (run_trace _ _ _ _ _ _); split; split; congruence.
Qed.

(** The second branch of the decision has to cross a node that the first
    branch has already explored. *)
Example diverging_branches_found :
  _has_dml_in_loops Docs.diverging_branches = true.
Proof. by vm_compute. Qed.

(** C6: Termination.  Every call of the tracer returns: with one unit of
    fuel per entry of the element map, plus one, the tracer never runs out
    of fuel, and more fuel does not change its answer.  Cycles among
    decisions and the return to the loop element are no exception. *)
Theorem tracer_terminates is_op element_map current loop_name exit_target visited :
  ∃ b, ∀ extra,
    trace_path is_op (enough_fuel element_map + extra) current loop_name
               exit_target visited element_map = Some b.
Proof.
  exists (run_trace is_op current loop_name exit_target visited element_map).
  intros extra. apply run_trace_spec.
  pose proof (unvisited_bound element_map visited). unfold enough_fuel. lia.
Qed.

Example decision_cycle_terminates :
  _has_dml_in_path (enough_fuel (_build_element_map Docs.decision_cycle))
                   (Some "D1") (Some "L") None ∅
                   (_build_element_map Docs.decision_cycle) = Some false.
Proof. by vm_compute. Qed.

Example loop_back_terminates :
  _has_dml_in_path (enough_fuel (_build_element_map Docs.write_after_loop))
                   (Some "A") (Some "L") (Some "W") ∅
                   (_build_element_map Docs.write_after_loop) = Some false.
Proof. by vm_compute. Qed.

(** C4: Fault-path exclusion.  Provided no fault connector carries decision
    rules of its own, the tracer gives the same answer on the element map
    and on the map from which every fault connector has been removed; so
    when every path to an element of the wanted type runs through a fault
    connector, the tracer answers [False]. *)
Theorem fault_path_exclusion is_op element_map current loop_name exit_target visited :
  map_Forall (fun _ v => plain_faults v.2 = true) element_map →
  run_trace is_op current loop_name exit_target visited element_map
  = run_trace is_op current loop_name exit_target visited
              (drop_fault_paths element_map)
  ∧ ((∀ k, ¬ leads_to_op is_op (drop_fault_paths element_map) loop_name
               exit_target visited k current) →
     run_trace is_op current loop_name exit_target visited element_map = false).
Proof.
  intros Hplain.
  assert (run_trace is_op current loop_name exit_target visited element_map
          = run_trace is_op current loop_name exit_target visited
                      (drop_fault_paths element_map)) as Heq.
  { apply run_trace_ext. by apply drop_fault_paths_edges. }
  split; [done|]. intros Hnone. rewrite Heq.
  destruct (run_trace _ _ _ _ _ (drop_fault_paths _)) eqn:Hrun; [|done].
  apply run_trace_true in Hrun as [k Hk]. by destruct (Hnone k).
Qed.

Lemma fault_path_exclusion_witness :
  run_trace is_dml (Some "A") (Some "L") None ∅
            (_build_element_map Docs.write_on_fault_path) = false.
Proof.
  refine (proj2 (fault_path_exclusion is_dml
                   (_build_element_map Docs.write_on_fault_path)
                   (Some "A") (Some "L") None ∅ _) _).
  - apply map_Forall_to_list. vm_compute. repeat constructor.
  - intros k Hk.
    assert (run_trace is_dml (Some "A") (Some "L") None ∅
              (drop_fault_paths (_build_element_map Docs.write_on_fault_path))
            = true) as Hrun.
    { apply run_trace_true. by exists k. }
    vm_compute in Hrun. discriminate Hrun.
Defined.

Example write_on_fault_path_silent :
  _has_dml_in_loops Docs.write_on_fault_path = false.
Proof. by vm_compute. Qed.

(** ** Loops that are skipped *)

(** C9: Malformed-loop silence.  A loop without [nextValueConnector] target
    is passed over by the scan of every detector: the scan continues with
    the remaining loops and no tracer call is made for it.  A tracer call on
    a name that the element map does not know answers [False]. *)
Theorem malformed_loop_silence is_op element_map :
  (∀ loop rest,
     find ["nextValueConnector"; "targetReference"] loop = None →
     scan_loops is_op element_map (loop :: rest)
     = scan_loops is_op element_map rest)
  ∧ (∀ fuel current loop_name exit_target visited,
       element_map !! current = None →
       trace_path is_op (S fuel) current loop_name exit_target visited
                  element_map = Some false).
Proof.
  split.
  - intros loop rest Hnone. simpl. by rewrite Hnone.
  - intros fuel current loop_name exit_target visited Hnone.
    rewrite trace_path_S, Hnone. by repeat case_decide.
Qed.

Lemma malformed_loop_silence_witness :
  scan_loops is_dml (_build_element_map Docs.loop_without_body)
             [Docs.empty_loop; Docs.writing_loop]
  = scan_loops is_dml (_build_element_map Docs.loop_without_body)
               [Docs.writing_loop]
  ∧ trace_path is_dml 1 (Some "Nowhere") (Some "L0") None ∅
               (_build_element_map Docs.loop_without_body) = Some false.
Proof.
  destruct (malformed_loop_silence is_dml
              (_build_element_map Docs.loop_without_body)) as [Hskip Hdangling].
  split.
  - apply Hskip. reflexivity.
  - apply Hdangling. by vm_compute.
Defined.

Example loop_without_body_only : _has_dml_in_loops
    (Docs.flow [Docs.empty_loop; Docs.node "recordCreates" "L1" []]) = false.
Proof. by vm_compute. Qed.

(** C10: Body entry and exit coincide.  When the target of
    [nextValueConnector] is the target of [noMoreValuesConnector], the
    tracer answers [False] on the first node, before it looks the node up,
    and the scan passes to the remaining loops, whatever element the shared
    target names. *)
Theorem body_entry_is_exit is_op element_map loop rest next_connector :
  find ["nextValueConnector"; "targetReference"] loop = Some next_connector →
  text next_connector = exit_target_of loop →
  (∀ fuel, trace_path is_op (S fuel) (text next_connector) (loop_name_of loop)
                      (exit_target_of loop) ∅ element_map = Some false)
  ∧ scan_loops is_op element_map (loop :: rest)
    = scan_loops is_op element_map rest.
Proof.
  intros Hnext Hsame.
  assert (∀ fuel, trace_path is_op (S fuel) (text next_connector)
                    (loop_name_of loop) (exit_target_of loop) ∅ element_map
                  = Some false) as Hfalse.
  { intros fuel. rewrite trace_path_S. by repeat case_decide. }
  split; [done|].
  rewrite scan_loops_cons. unfold loop_offends, run_trace, enough_fuel.
  by rewrite Hnext, Hfalse.
Qed.

Lemma body_entry_is_exit_witness :
  _build_element_map Docs.body_is_exit !! Some "W"
  = Some ("recordCreates",
          Docs.node "recordCreates" "W" [Docs.conn "connector" "L"])
  ∧ scan_loops is_dml (_build_element_map Docs.body_is_exit) [Docs.short_loop]
    = false.
Proof.
  split; [by vm_compute|].
  exact (proj2 (body_entry_is_exit is_dml (_build_element_map Docs.body_is_exit)
                  Docs.short_loop [] (Docs.leaf "targetReference" "W")
                  eq_refl eq_refl)).
Defined.

(** ** One finding per detector *)

(** C3, as it reads: one finding for each offending loop. *)
Lemma per_loop_findings_counterexample :
  ¬ (∀ root,
       length (logic_structure_critical_issues root)
       = length (offending_loops is_dml root)
         + length (offending_loops is_soql root)).
Proof.
  intros Hclaim. specialize (Hclaim Docs.two_loops_with_writes).
  vm_compute in Hclaim. discriminate Hclaim.
Qed.

(** C3: Finding granularity, amended.  Each loop detector answers for the
    whole document: the write detector and the query detector each add one
    fixed [CRITICAL] entry when at least one loop offends and none
    otherwise, the action detector adds one fixed [HIGH] entry under the
    same condition; the entries are the same for every document. *)
Theorem one_finding_per_detector root :
  logic_structure_critical_issues root
  = ((match offending_loops is_dml root with
      | [] => []
      | _ => [dml_in_loops_issue]
      end)
     ++ (match offending_loops is_soql root with
         | [] => []
         | _ => [soql_in_loops_issue]
         end))%list
  ∧ logic_structure_warnings root
    = (match offending_loops is_action root with
       | [] => []
       | _ => [action_in_loops_warning]
       end)
  ∧ ("severity", "CRITICAL") ∈ dml_in_loops_issue
  ∧ ("severity", "CRITICAL") ∈ soql_in_loops_issue
  ∧ ("severity", "HIGH") ∈ action_in_loops_warning.
Proof.
  assert (∀ is_op (e : entry),
            (if op_in_loops is_op root then [e] else [])
            = match offending_loops is_op root with [] => [] | _ => [e] end)
    as Hone.
  { intros is_op e. pose proof (op_in_loops_offending is_op root) as Hiff.
    destruct (op_in_loops is_op root), (offending_loops is_op root);
      try done.
    - by destruct (proj1 Hiff eq_refl).
    - by destruct Hiff as [_ Hiff]; discriminate Hiff. }
  unfold logic_structure_critical_issues, logic_structure_warnings,
    _has_dml_in_loops, _has_soql_in_loops, _check_action_calls_in_loop.
  rewrite !Hone. split; [done|]. split; [done|].
  split; [left|]. split; left.
Qed.

Example two_loops_one_finding :
  logic_structure_critical_issues Docs.two_loops_with_writes
  = [dml_in_loops_issue].
Proof. by vm_compute. Qed.

(** ** Recursive updates *)

(** C5, as it reads: any write on the trigger object counts. *)
Lemma recursive_write_counterexample :
  ¬ (∀ root,
       length (recursive_update_issues root) = 1
       ↔ write_on_trigger root = true ∧ entry_filter root = false).
Proof.
  intros Hclaim.
  destruct (Hclaim (Docs.after_save [] [Docs.create_case])) as [_ Hback].
  assert (length (recursive_update_issues
                    (Docs.after_save [] [Docs.create_case])) = 1) as Hone.
  { apply Hback. by vm_compute. }
  vm_compute in Hone. discriminate Hone.
Qed.

Lemma update_recurses_spec start trigger_obj_name update :
  update_recurses start trigger_obj_name update
  = targets_trigger trigger_obj_name update && negb (has_entry_conditions start).
Proof.
  unfold update_recurses, targets_trigger.
  destruct (find ["object"] update) as [obj|],
           (find ["inputReference"] update) as [input_ref|],
           (has_entry_conditions start); simpl;
    repeat (match goal with |- context [bool_decide ?P] =>
                              destruct (bool_decide P) end); done.
Qed.

(** C5: Recursive-update guard, amended.  In a document whose start element
    declares the trigger type [RecordAfterSave] and a trigger object, the
    detector scans the record updates whose object is the trigger object or
    whose input is the triggering record; it adds exactly one [CRITICAL]
    entry if and only if such an update exists and the start element has
    neither filter logic nor filters, and it adds nothing when the start
    element has an entry filter.  Creates and deletes are not scanned, and
    without that trigger type or without trigger object nothing is
    reported. *)
Theorem recursive_update_guard root :
  let offending :=
    ∃ start trigger_type trigger_object update,
      find_desc "start" root = Some start
      ∧ find ["triggerType"] start = Some trigger_type
      ∧ text trigger_type = Some "RecordAfterSave"
      ∧ find ["object"] start = Some trigger_object
      ∧ update ∈ findall_desc "recordUpdates" root
      ∧ targets_trigger (text trigger_object) update = true
      ∧ has_entry_conditions start = false in
  (recursive_update_issues root = [recursive_update_issue] ↔ offending)
  ∧ (recursive_update_issues root = [] ↔ ¬ offending)
  ∧ (entry_filter root = true → recursive_update_issues root = [])
  ∧ ("severity", "CRITICAL") ∈ recursive_update_issue.
Proof.
  intros offending.
  assert (_check_recursive_after_update root = true ↔ offending) as Hiff.
  { subst offending. unfold _check_recursive_after_update. split.
    - destruct (find_desc "start" root) as [start|] eqn:Hstart; [|done].
      destruct (find ["triggerType"] start) as [trigger_type|] eqn:Htrigger;
        [|done].
      case_decide as Htype; [|done].
      destruct (find ["object"] start) as [trigger_object|] eqn:Hobject;
        [|done].
      intros (update & Hin & Hrec)%existsb_exists.
      rewrite update_recurses_spec in Hrec.
      apply andb_prop in Hrec as [Htarget Hfilter].
      apply negb_true_iff in Hfilter.
      exists start, trigger_type, trigger_object, update.
      repeat split; try done. by apply list_elem_of_In.
    - intros (start & trigger_type & trigger_object & update
              & -> & -> & Htype & -> & Hin & Htarget & Hfilter).
      rewrite decide_True by done. apply existsb_exists.
      exists update. split; [by apply list_elem_of_In|].
      by rewrite update_recurses_spec, Htarget, Hfilter. }
  assert (entry_filter root = true → _check_recursive_after_update root = false)
    as Hfilter.
  { unfold entry_filter, _check_recursive_after_update.
    destruct (find_desc "start" root) as [start|]; [|done]. intros Hentry.
    destruct (find ["triggerType"] start); [|done].
    case_decide; [|done]. destruct (find ["object"] start); [|done].
    apply not_true_is_false. intros (update & _ & Hrec)%existsb_exists.
    rewrite update_recurses_spec, Hentry in Hrec.
    by rewrite andb_false_r in Hrec. }
  assert (("severity", "CRITICAL") ∈ recursive_update_issue) as Hsev by left.
  unfold recursive_update_issues.
  destruct (_check_recursive_after_update root) eqn:Hcheck.
  - split; [|split; [|split]]; [| | |done].
    + split; [intros _; by apply Hiff | done].
    + split; [done|]. intros Hnot. destruct Hnot. by apply Hiff.
    + intros Hentry. discriminate (Hfilter Hentry).
  - assert (¬ offending) as Hnot.
    { intros Hoff. apply Hiff in Hoff. congruence. }
    split; [|split; [|split]]; [| | |done].
    + split; [done|]. intros Hoff. by destruct Hnot.
    + split; done.
    + done.
Qed.

Lemma recursive_update_guard_witness :
  recursive_update_issues
    (Docs.after_save [Docs.a_filter] [Docs.update_case]) = [].
Proof.
  apply (recursive_update_guard
           (Docs.after_save [Docs.a_filter] [Docs.update_case])).
  by vm_compute.
Defined.

Example update_without_filter :
  recursive_update_issues (Docs.after_save [] [Docs.update_case])
  = [recursive_update_issue].
Proof. by vm_compute. Qed.

(** ** Searching a document that grows *)

Lemma in_findall_desc t root e :
  e ∈ findall_desc t root ↔ e ∈ descendants root ∧ tag e = t.
Proof.
  unfold findall_desc. rewrite !list_elem_of_In, List.filter_In.
  unfold has_tag. by rewrite bool_decide_eq_true.
Qed.

Lemma descendants_add_child root c :
  descendants (add_child root c) = descendants root ++ c :: descendants c.
Proof.
  destruct root as [t x cs]. unfold add_child. simpl.
  rewrite flat_map_app. simpl. by rewrite app_nil_r.
Qed.

Lemma name_is_no_element_type : "name" ∉ element_types.
Proof. apply (bool_decide_unpack _). by vm_compute. Qed.

Lemma start_is_no_element_type : "start" ∉ element_types.
Proof. apply (bool_decide_unpack _). by vm_compute. Qed.

Lemma targetReference_is_no_element_type : "targetReference" ∉ element_types.
Proof. apply (bool_decide_unpack _). by vm_compute. Qed.

(** An isolated element shows up in the searches for its own type only. *)
Lemma findall_desc_add_isolated t root elem_type n :
  t ≠ elem_type → t ≠ "name" →
  findall_desc t (add_child root (isolated elem_type n)) = findall_desc t root.
Proof.
  intros Hty Hname. unfold findall_desc. rewrite descendants_add_child.
  rewrite List.filter_app.
  assert (List.filter (has_tag t)
            (isolated elem_type n :: descendants (isolated elem_type n)) = [])
    as ->; [|by rewrite app_nil_r].
  simpl. unfold has_tag. simpl. by rewrite !bool_decide_eq_false_2 by congruence.
Qed.

Lemma in_findall_desc_add_isolated t root elem_type n e :
  t ≠ "name" →
  e ∈ findall_desc t (add_child root (isolated elem_type n))
  ↔ e ∈ findall_desc t root ∨ (t = elem_type ∧ e = isolated elem_type n).
Proof.
  intros Hname. rewrite !in_findall_desc, descendants_add_child.
  rewrite elem_of_app. simpl. rewrite !elem_of_cons, elem_of_nil. split.
  - intros [[Hin|[->|[->|[]]]] Htag]; simpl in *; eauto. congruence.
  - intros [[Hin Htag]|[-> ->]]; eauto.
Qed.

(** ** Unconnected elements *)

Lemma elem_of_all_elements root x :
  x ∈ all_elements root
  ↔ ∃ elem_type e name_elem,
      elem_type ∈ element_types ∧ e ∈ findall_desc elem_type root
      ∧ find ["name"] e = Some name_elem ∧ text name_elem = x.
Proof.
  unfold all_elements. rewrite elem_of_list_to_set, list_elem_of_In, in_flat_map.
  split.
  - intros (elem_type & Hty & Hx). apply list_elem_of_In in Hx, Hty.
    apply list_elem_of_omap in Hx as (e & He & Hx).
    apply fmap_Some in Hx as (name_elem & Hfind & ->). by eauto 8.
  - intros (elem_type & e & name_elem & Hty & He & Hfind & <-).
    exists elem_type. rewrite <- !list_elem_of_In. split; [done|].
    apply list_elem_of_omap. exists e. by rewrite Hfind.
Qed.

Lemma all_elements_add_isolated root elem_type n :
  elem_type ∈ element_types →
  all_elements (add_child root (isolated elem_type n))
  = all_elements root ∪ {[n]}.
Proof.
  intros Hty. apply set_eq. intros x.
  rewrite elem_of_union, elem_of_singleton, !elem_of_all_elements. split.
  - intros (ty & e & name_elem & Hin & He & Hfind & Hx).
    apply in_findall_desc_add_isolated in He as [He|[-> ->]].
    + left. by eauto 8.
    + right. vm_compute in Hfind. by injection Hfind as <-.
    + intros ->. by apply name_is_no_element_type.
  - intros [(ty & e & name_elem & Hin & He & Hfind & Hx)| ->].
    + exists ty, e, name_elem. repeat split; try done.
      apply in_findall_desc_add_isolated; [|by left].
      intros ->. by apply name_is_no_element_type.
    + exists elem_type, (isolated elem_type n), (Element "name" n []).
      repeat split; try done.
      apply in_findall_desc_add_isolated; [|by right].
      intros ->. by apply name_is_no_element_type.
Qed.

Lemma connected_elements_add_isolated root elem_type n :
  elem_type ∈ element_types →
  connected_elements (add_child root (isolated elem_type n))
  = connected_elements root.
Proof.
  intros Hty. unfold connected_elements, start_target, connector_targets, find_desc.
  rewrite !findall_desc_add_isolated; try done; intros <-.
  - by apply targetReference_is_no_element_type.
  - by apply start_is_no_element_type.
Qed.

Lemma elem_of_connector_targets root connector s :
  connector ∈ findall_desc "targetReference" root →
  text connector = Some s → s ≠ "" →
  Some s ∈ connector_targets root.
Proof.
  intros Hin Htext Hs. unfold connector_targets.
  apply elem_of_list_to_set, list_elem_of_omap. exists connector.
  split; [done|]. rewrite Htext. simpl. by rewrite decide_False.
Qed.

(** C7, as it reads: one finding for each orphaned element. *)
Lemma per_orphan_findings_counterexample :
  ¬ (∀ root findings,
       orphaned_elements_advisory root = Some findings →
       length findings = size (all_elements root ∖ connected_elements root)).
Proof.
  intros Hclaim. specialize (Hclaim Docs.two_orphans _ eq_refl).
  vm_compute in Hclaim. discriminate Hclaim.
Qed.

(** C7: Orphans as a set difference, amended.  The check returns, each
    once, the names in the set of element names minus the set of connector
    targets (every non-empty [targetReference] of the document, with the
    target of the start connector).  Adding an element with a new name that
    no connector targets makes the list one longer; a name that some
    connector targets is not in the list.  The caller reports a non-empty
    list in a single [Clean Code] advisory, without severity, and not one
    finding per name. *)
Theorem orphans_are_set_difference root :
  (∀ n, n ∈ _check_unconnected_elements root
        ↔ n ∈ all_elements root ∧ n ∉ connected_elements root)
  ∧ NoDup (_check_unconnected_elements root)
  ∧ (∀ elem_type n,
       elem_type ∈ element_types →
       n ∉ all_elements root → n ∉ connected_elements root →
       length (_check_unconnected_elements (add_child root (isolated elem_type n)))
       = S (length (_check_unconnected_elements root)))
  ∧ (∀ connector s,
       connector ∈ findall_desc "targetReference" root →
       text connector = Some s → s ≠ "" →
       Some s ∉ _check_unconnected_elements root)
  ∧ (∀ findings,
       orphaned_elements_advisory root = Some findings →
       length findings ≤ 1
       ∧ (findings = [] ↔ _check_unconnected_elements root = [])
       ∧ ∀ finding, finding ∈ findings → ("category", "Clean Code") ∈ finding).
Proof.
  unfold _check_unconnected_elements.
  split; [|split; [|split; [|split]]].
  - intros n. by rewrite elem_of_elements, elem_of_difference.
  - apply NoDup_elements.
  - intros elem_type n Hty Hnew Hfree.
    rewrite all_elements_add_isolated, connected_elements_add_isolated by done.
    change (size ((all_elements root ∪ {[n]}) ∖ connected_elements root)
            = S (size (all_elements root ∖ connected_elements root))).
    generalize dependent (connected_elements root).
    generalize dependent (all_elements root). intros named Hnew targets Hfree.
    replace ((named ∪ {[n]}) ∖ targets) with ({[n]} ∪ named ∖ targets)
      by set_solver.
    rewrite size_union by set_solver. by rewrite size_singleton.
  - intros connector s Hin Htext Hs.
    rewrite elem_of_elements, elem_of_difference. intros [_ Hnot].
    apply Hnot. unfold connected_elements. apply elem_of_union_r.
    by eapply elem_of_connector_targets.
  - intros findings. unfold orphaned_elements_advisory, _check_unconnected_elements.
    destruct (elements _) as [|n rest].
    + intros [= <-]. split; [simpl; lia|]. split; [done|].
      intros finding Hin. by apply elem_of_nil in Hin.
    + destruct (join_names _) as [shown|]; simpl; [|done].
      intros [= <-]. split; [simpl; lia|]. split; [done|].
      intros finding ->%list_elem_of_singleton. left.
Qed.

Lemma orphans_are_set_difference_witness :
  length (_check_unconnected_elements
            (add_child Docs.two_orphans (isolated "waits" (Some "D")))) = 3
  ∧ Some "A" ∉ _check_unconnected_elements Docs.two_orphans.
Proof.
  destruct (orphans_are_set_difference Docs.two_orphans)
    as (_ & _ & Hadd & Hedge & _).
  split.
  - rewrite (Hadd "waits" (Some "D")).
    + by vm_compute.
    + apply (bool_decide_unpack _). by vm_compute.
    + apply (bool_decide_unpack _). by vm_compute.
    + apply (bool_decide_unpack _). by vm_compute.
  - apply (Hedge (Docs.leaf "targetReference" "A") "A").
    + vm_compute. left.
    + reflexivity.
    + discriminate.
Defined.

(** ** Unused variables *)

(** C8, as it reads: one finding for each unused variable. *)
Lemma per_variable_findings_counterexample :
  ¬ (∀ root findings,
       unused_variables_advisory Re.findall_refs root = Some findings →
       length findings
       = size (defined_vars root ∖ referenced_vars Re.findall_refs root)).
Proof.
  intros Hclaim. specialize (Hclaim Docs.three_variables _ eq_refl).
  vm_compute in Hclaim. discriminate Hclaim.
Qed.

(** C8: Unused variables as a set difference, amended.  Whatever the
    regular expression engine extracts from formulas, the check returns,
    each once, the declared variable names that are not among the referenced
    names; with the variables [a], [b], [c] declared and only [a]
    referenced, it returns [b] and [c] and nothing else.  The caller reports
    a non-empty list in a single [Clean Code] advisory, without severity,
    and not one finding per name. *)
Theorem unused_are_set_difference (re_findall_refs : string → list string) root :
  (∀ n, n ∈ _check_unused_variables re_findall_refs root
        ↔ n ∈ defined_vars root ∧ n ∉ referenced_vars re_findall_refs root)
  ∧ NoDup (_check_unused_variables re_findall_refs root)
  ∧ (∀ a b c,
       defined_vars root = {[a; b; c]} →
       a ∈ referenced_vars re_findall_refs root →
       b ∉ referenced_vars re_findall_refs root →
       c ∉ referenced_vars re_findall_refs root →
       ∀ n, n ∈ _check_unused_variables re_findall_refs root ↔ n = b ∨ n = c)
  ∧ (∀ findings,
       unused_variables_advisory re_findall_refs root = Some findings →
       length findings ≤ 1
       ∧ (findings = [] ↔ _check_unused_variables re_findall_refs root = [])
       ∧ ∀ finding, finding ∈ findings → ("category", "Clean Code") ∈ finding).
Proof.
  assert (∀ n, n ∈ _check_unused_variables re_findall_refs root
               ↔ n ∈ defined_vars root ∧ n ∉ referenced_vars re_findall_refs root)
    as Hdiff.
  { intros n. unfold _check_unused_variables.
    by rewrite elem_of_elements, elem_of_difference. }
  split; [done|]. split; [apply NoDup_elements|]. split.
  - intros a b c Hdefined Ha Hb Hc n. rewrite Hdiff, Hdefined.
    rewrite !elem_of_union, !elem_of_singleton. split.
    + intros [[[->| ->]| ->] Hn]; by eauto.
    + intros [->| ->]; by eauto.
  - intros findings. unfold unused_variables_advisory.
    destruct (_check_unused_variables _ _) as [|n rest].
    + intros [= <-]. split; [simpl; lia|]. split; [done|].
      intros finding Hin. by apply elem_of_nil in Hin.
    + destruct (join_names _) as [shown|]; simpl; [|done].
      intros [= <-]. split; [simpl; lia|]. split; [done|].
      intros finding ->%list_elem_of_singleton. left.
Qed.

Lemma unused_are_set_difference_witness :
  Some "B" ∈ _check_unused_variables Re.findall_refs Docs.three_variables
  ∧ Some "C" ∈ _check_unused_variables Re.findall_refs Docs.three_variables
  ∧ Some "A" ∉ _check_unused_variables Re.findall_refs Docs.three_variables.
Proof.
  destruct (unused_are_set_difference Re.findall_refs Docs.three_variables)
    as (_ & _ & Habc & _).
  assert (∀ n, n ∈ _check_unused_variables Re.findall_refs Docs.three_variables
               ↔ n = Some "B" ∨ n = Some "C") as Hbc.
  { apply (Habc (Some "A")).
    - by vm_compute.
    - apply (bool_decide_unpack _). by vm_compute.
    - apply (bool_decide_unpack _). by vm_compute.
    - apply (bool_decide_unpack _). by vm_compute. }
  split; [apply Hbc; by left|]. split; [apply Hbc; by right|].
  intros [H|H]%Hbc; discriminate H.
Defined.

Example formula_reference_counts :
  _check_unused_variables Re.findall_refs
    (Docs.flow [ Docs.node "variables" "rate" [];
                 Docs.node "variables" "spare" [];
                 Element "formulas" None
                   [Docs.leaf "expression" "{! rate} * 2"] ])
  = [Some "spare"].
Proof. by vm_compute. Qed.

(** * Further properties *)

(** ** The element map *)

Local Abbreviation write_entry :=
  (fun (m : gmap name (string * xml)) (kv : name * (string * xml)) =>
     <[kv.1 := kv.2]> m).

Lemma add_elements_writes elem_type element_map elems :
  add_elements elem_type element_map elems
  = foldl write_entry element_map
      (omap (fun elem =>
               (fun name_elem => (text name_elem, (elem_type, elem)))
                 <$> find ["name"] elem) elems).
Proof.
  unfold add_elements. revert element_map.
  induction elems as [|elem elems IH]; intros element_map; simpl; [done|].
  destruct (find ["name"] elem); simpl; apply IH.
Qed.

Lemma build_element_map_writes root :
  _build_element_map root = foldl write_entry ∅ (named_elements root).
Proof.
  unfold _build_element_map, named_elements.
  generalize (∅ : gmap name (string * xml)).
  induction element_types as [|elem_type types IH]; intros m; simpl; [done|].
  rewrite foldl_app, <- add_elements_writes. apply IH.
Qed.

Lemma writes_lookup_keep l : ∀ (m : gmap name (string * xml)) k,
  k ∉ l.*1 → foldl write_entry m l !! k = m !! k.
Proof.
  induction l as [|[k' v'] l IH]; intros m k Hk; simpl; [done|].
  rewrite fmap_cons, not_elem_of_cons in Hk. destruct Hk as [Hne Hk].
  rewrite IH by done. simpl in *. by rewrite lookup_insert_ne.
Qed.

Lemma writes_lookup_origin l : ∀ (m : gmap name (string * xml)) k v,
  foldl write_entry m l !! k = Some v → (k, v) ∈ l ∨ m !! k = Some v.
Proof.
  induction l as [|[k' v'] l IH]; intros m k v Hk; simpl in *; [by right|].
  apply IH in Hk as [Hin|Hk]; [left; by right|].
  destruct (decide (k' = k)) as [->|Hne].
  - rewrite lookup_insert_eq in Hk. injection Hk as ->. left. left.
  - rewrite lookup_insert_ne in Hk by done. by right.
Qed.

Lemma writes_dom l : ∀ (m : gmap name (string * xml)),
  dom (foldl write_entry m l) = dom m ∪ list_to_set l.*1.
Proof.
  induction l as [|[k v] l IH]; intros m; simpl.
  - set_solver.
  - rewrite IH, dom_insert_L. set_solver.
Qed.

Lemma elem_of_named_elements root k elem_type elem :
  (k, (elem_type, elem)) ∈ named_elements root
  ↔ elem_type ∈ element_types ∧ elem ∈ findall_desc elem_type root
    ∧ ∃ name_elem, find ["name"] elem = Some name_elem ∧ text name_elem = k.
Proof.
  unfold named_elements. rewrite list_elem_of_In, in_flat_map. split.
  - intros (ty & Hty & Hin). apply list_elem_of_In in Hty, Hin.
    apply list_elem_of_omap in Hin as (e & He & Hsome).
    apply fmap_Some in Hsome as (name_elem & Hfind & [= -> -> ->]). eauto.
  - intros (Hty & He & name_elem & Hfind & <-). exists elem_type.
    rewrite <- !list_elem_of_In. split; [done|].
    apply list_elem_of_omap. exists elem. by rewrite Hfind.
Qed.

Lemma element_map_origin root k elem_type elem :
  _build_element_map root !! k = Some (elem_type, elem) →
  elem ∈ findall_desc elem_type root.
Proof.
  rewrite build_element_map_writes. intros Hk.
  apply writes_lookup_origin in Hk as [Hin|Hk]; [|done].
  by apply elem_of_named_elements in Hin as (_ & Hin & _).
Qed.

(** X1: every entry of the element map is keyed by the text of the name of
    its own element, and the element is one of the document's elements of
    the recorded type, which is one of the twelve node types. *)
Theorem element_map_entries root k elem_type elem :
  _build_element_map root !! k = Some (elem_type, elem) →
  elem_type ∈ element_types ∧ elem ∈ findall_desc elem_type root
  ∧ ∃ name_elem, find ["name"] elem = Some name_elem ∧ text name_elem = k.
Proof.
  rewrite build_element_map_writes. intros Hk.
  apply writes_lookup_origin in Hk as [Hin|Hk].
  - by apply elem_of_named_elements.
  - by rewrite lookup_empty in Hk.
Qed.

Lemma element_map_entries_witness :
  Docs.node "recordCreates" "W" []
  ∈ findall_desc "recordCreates" Docs.write_after_loop.
Proof.
  refine (proj1 (proj2 (element_map_entries Docs.write_after_loop (Some "W")
                          "recordCreates" (Docs.node "recordCreates" "W" []) _))).
  by vm_compute.
Defined.

(** X2: the keys of the element map are exactly the element names that the
    orphan check starts from; in particular every reported orphan is a key
    of the element map. *)
Theorem element_map_keys root :
  dom (_build_element_map root) = all_elements root
  ∧ ∀ n, n ∈ _check_unconnected_elements root →
         is_Some (_build_element_map root !! n).
Proof.
  assert (dom (_build_element_map root) = all_elements root) as Hdom.
  { rewrite build_element_map_writes, writes_dom, dom_empty_L, (left_id_L ∅ _).
    apply set_eq. intros k. rewrite elem_of_list_to_set, elem_of_all_elements.
    rewrite list_elem_of_fmap. split.
    - intros ([k' [ty e]] & -> & Hin). simpl.
      apply elem_of_named_elements in Hin as (Hty & He & nm & Hfind & Hk).
      by eauto 8.
    - intros (ty & e & nm & Hty & He & Hfind & Hk).
      exists (k, (ty, e)). split; [done|].
      apply elem_of_named_elements. by eauto 8. }
  split; [done|]. intros n Hn. apply elem_of_dom. rewrite Hdom.
  unfold _check_unconnected_elements in Hn.
  apply elem_of_elements, elem_of_difference in Hn. by destruct Hn.
Qed.

Lemma element_map_keys_witness :
  is_Some (_build_element_map Docs.two_orphans !! Some "B").
Proof.
  apply (element_map_keys Docs.two_orphans).
  apply (bool_decide_unpack _). by vm_compute.
Defined.

(** X3: when several elements carry the same name, the map keeps the last
    one written: element types are visited in the order of the list of
    types, elements of one type in document order. *)
Theorem element_map_last_write root before k v after :
  named_elements root = before ++ (k, v) :: after →
  k ∉ after.*1 →
  _build_element_map root !! k = Some v.
Proof.
  intros Hsplit Hlast. rewrite build_element_map_writes, Hsplit, foldl_app.
  simpl. rewrite writes_lookup_keep by done. apply lookup_insert_eq.
Qed.

Lemma element_map_last_write_witness :
  _build_element_map MoreDocs.shared_name !! Some "X"
  = Some ("screens", Docs.node "screens" "X" []).
Proof.
  apply (element_map_last_write MoreDocs.shared_name
           [(Some "X", ("assignments", Docs.node "assignments" "X" []))]
           (Some "X") ("screens", Docs.node "screens" "X" []) []).
  - by vm_compute.
  - apply not_elem_of_nil.
Defined.

(** ** More on the tracer *)

Lemma leads_to_op_entry is_op element_map loop_name exit_target visited k n :
  leads_to_op is_op element_map loop_name exit_target visited k n →
  ∃ key elem_type elem,
    element_map !! key = Some (elem_type, elem) ∧ is_op elem_type = true.
Proof. induction 1; eauto. Qed.

Lemma loop_offends_true is_op element_map loop :
  loop_offends is_op element_map loop = true
  ↔ ∃ next_connector k,
      find ["nextValueConnector"; "targetReference"] loop = Some next_connector
      ∧ leads_to_op is_op element_map (loop_name_of loop) (exit_target_of loop)
                    ∅ k (text next_connector).
Proof.
  unfold loop_offends.
  destruct (find ["nextValueConnector"; "targetReference"] loop)
    as [next_connector|].
  - rewrite run_trace_true. split.
    + intros [k Hk]. by eauto.
    + intros (? & k & [= <-] & Hk). by eauto.
  - split; [done|]. by intros (? & ? & ? & _).
Qed.

Lemma op_in_loops_entry is_op root :
  op_in_loops is_op root = true →
  ∃ key elem_type elem,
    _build_element_map root !! key = Some (elem_type, elem)
    ∧ is_op elem_type = true.
Proof.
  unfold op_in_loops. destruct (findall_desc "loops" root); [done|].
  rewrite scan_loops_existsb.
  intros (loop & _ & (next & k & _ & Hk)%loop_offends_true)%existsb_exists.
  by eapply leads_to_op_entry.
Qed.

(** X4: what a loop detector answers for a document.  It fires exactly when
    some loop of the document has a [nextValueConnector] target from which a
    path inside the body of that loop, read in the element map of the
    document, leads to an element of the wanted type. *)
Theorem op_in_loops_true is_op root :
  op_in_loops is_op root = true
  ↔ ∃ loop next_connector k,
      loop ∈ findall_desc "loops" root
      ∧ find ["nextValueConnector"; "targetReference"] loop = Some next_connector
      ∧ leads_to_op is_op (_build_element_map root) (loop_name_of loop)
                    (exit_target_of loop) ∅ k (text next_connector).
Proof.
  assert (op_in_loops is_op root
          = existsb (loop_offends is_op (_build_element_map root))
                    (findall_desc "loops" root)) as ->.
  { unfold op_in_loops. destruct (findall_desc "loops" root); [done|].
    apply scan_loops_existsb. }
  rewrite existsb_exists. split.
  - intros (loop & Hin & (next_connector & k & Hnext & Hk)%loop_offends_true).
    exists loop, next_connector, k. by rewrite list_elem_of_In.
  - intros (loop & next_connector & k & Hin & Hnext & Hk).
    exists loop. rewrite <- list_elem_of_In. split; [done|].
    apply loop_offends_true. by eauto.
Qed.

(** X5: a document without any element of the wanted type gets no finding
    from the loop detector, whatever its loops and connectors look like; in
    particular a document without write elements has no write in a loop. *)
Theorem no_operation_no_finding root :
  (∀ is_op,
     (∀ elem_type, is_op elem_type = true → findall_desc elem_type root = []) →
     op_in_loops is_op root = false)
  ∧ (_count_dml_operations root = 0 → _has_dml_in_loops root = false).
Proof.
  assert (∀ is_op,
            (∀ elem_type, is_op elem_type = true →
                          findall_desc elem_type root = []) →
            op_in_loops is_op root = false) as Hnone.
  { intros is_op Hno. apply not_true_is_false.
    intros (key & elem_type & elem & Hkey & Hop)%op_in_loops_entry.
    apply element_map_origin in Hkey as Hin.
    rewrite (Hno _ Hop) in Hin. by apply elem_of_nil in Hin. }
  split; [done|]. intros Hcount. apply Hnone. intros elem_type Hop.
  unfold _count_dml_operations, _count_elements in Hcount.
  apply bool_decide_eq_true in Hop.
  apply length_zero_iff_nil.
  repeat (apply elem_of_cons in Hop as [->|Hop]; [lia|]).
  by apply elem_of_nil in Hop.
Qed.

Lemma no_operation_no_finding_witness :
  _has_dml_in_loops Docs.decision_cycle = false.
Proof.
  apply (no_operation_no_finding Docs.decision_cycle). by vm_compute.
Defined.

(** X6: the visited set can only hide results.  A call that answers [True]
    still answers [True] when names are taken out of its visited set. *)
Theorem visited_only_hides (is_op : string → bool) (element_map : gmap name (string * xml))
    (current loop_name exit_target : name) (visited visited' : gset name) :
  visited ⊆ visited' →
  run_trace is_op current loop_name exit_target visited' element_map = true →
  run_trace is_op current loop_name exit_target visited element_map = true.
Proof.
  intros Hsub. rewrite !run_trace_true. intros [k Hk]. exists k.
  by eapply leads_mono.
Qed.

Lemma visited_only_hides_witness :
  run_trace is_dml (Some "D") (Some "L") None ∅
            (_build_element_map Docs.diverging_branches) = true.
Proof.
  apply (visited_only_hides is_dml (_build_element_map Docs.diverging_branches)
           (Some "D") (Some "L") None ∅ {[Some "A"]}).
  - apply empty_subseteq.
  - by vm_compute.
Defined.

(** X7: the tracer does not walk into an inner loop.  An element that is not
    of the wanted type and has neither standard connector, nor default
    connector, nor rules ends the walk with [False]; a loop element, whose
    successors hang on [nextValueConnector] and [noMoreValuesConnector], is
    such an element. *)
Theorem walk_ends_at_inner_loop (is_op : string → bool)
    (element_map : gmap name (string * xml))
    (current loop_name exit_target : name) (visited : gset name)
    (elem_type : string) (elem : xml) :
  element_map !! current = Some (elem_type, elem) →
  is_op elem_type = false →
  step "connector" elem = [] →
  step "defaultConnector" elem = [] →
  findall_desc "rules" elem = [] →
  run_trace is_op current loop_name exit_target visited element_map = false.
Proof.
  intros Hcur Hop Hconn Hdefault Hrules.
  assert (connectors elem = []) as Hnone.
  { unfold connectors, target_of, find. simpl.
    by rewrite Hconn, Hdefault, Hrules. }
  rewrite run_trace_unfold, Hcur, Hop, Hnone. simpl.
  by repeat case_decide.
Qed.

Lemma walk_ends_at_inner_loop_witness :
  run_trace is_dml (Some "Inner") (Some "Outer") None ∅
            (_build_element_map MoreDocs.nested_loops) = false.
Proof.
  apply (walk_ends_at_inner_loop is_dml
           (_build_element_map MoreDocs.nested_loops)
           (Some "Inner") (Some "Outer") None ∅ "loops"
           (Docs.node "loops" "Inner"
              [Docs.conn "nextValueConnector" "W";
               Docs.conn "noMoreValuesConnector" "Outer"]));
    by vm_compute.
Defined.

Example inner_loop_found_by_its_own_scan :
  offending_loops is_dml MoreDocs.nested_loops
  = [Docs.node "loops" "Inner"
       [Docs.conn "nextValueConnector" "W";
        Docs.conn "noMoreValuesConnector" "Outer"]].
Proof. by vm_compute. Qed.

(** ** Counting *)

Lemma count_with_filter (p : xml → bool) l : ∀ count,
  foldl (fun count element => if p element then S count else count) count l
  = count + length (List.filter p l).
Proof.
  induction l as [|e l IH]; intros count; simpl; [lia|].
  rewrite IH. destruct (p e); simpl; lia.
Qed.

Lemma filter_length_all (p : xml → bool) l :
  length (List.filter p l) = length l ↔ ∀ e, e ∈ l → p e = true.
Proof.
  induction l as [|e l IH]; simpl.
  - split; [|done]. intros _ e He. by apply elem_of_nil in He.
  - pose proof (List.filter_length_le p l) as Hle.
    destruct (p e) eqn:Hp; simpl.
    + split.
      * intros Hlen e' [->|He']%elem_of_cons; [done|]. apply IH; [lia | done].
      * intros Hall. f_equal. apply IH. intros e' He'. apply Hall. by right.
    + split; [lia|]. intros Hall. specialize (Hall e ltac:(left)). congruence.
Qed.

(** X8: the number of write elements with a fault path never exceeds the
    number of write elements, so the count of writes that miss a fault path
    is never negative; the two numbers agree exactly when every create,
    update and delete element has a fault connector. *)
Theorem fault_path_count root :
  _count_dml_with_fault_paths root ≤ _count_dml_operations root
  ∧ (_count_dml_with_fault_paths root = _count_dml_operations root
     ↔ ∀ elem_type element,
         is_dml elem_type = true → element ∈ findall_desc elem_type root →
         has_fault_connector element = true).
Proof.
  unfold _count_dml_with_fault_paths, _count_dml_operations, _count_elements.
  simpl. rewrite !count_with_filter. simpl.
  pose proof (List.filter_length_le has_fault_connector
                (findall_desc "recordCreates" root)) as Hc.
  pose proof (List.filter_length_le has_fault_connector
                (findall_desc "recordUpdates" root)) as Hu.
  pose proof (List.filter_length_le has_fault_connector
                (findall_desc "recordDeletes" root)) as Hd.
  split; [lia|]. split.
  - intros Heq elem_type element Hty Hin.
    apply bool_decide_eq_true in Hty.
    repeat (apply elem_of_cons in Hty as [->|Hty];
            [eapply filter_length_all; [|exact Hin]; lia|]).
    by apply elem_of_nil in Hty.
  - intros Hall.
    assert (∀ ty, is_dml ty = true →
                  length (List.filter has_fault_connector (findall_desc ty root))
                  = length (findall_desc ty root)) as Hfull.
    { intros ty Hty. apply filter_length_all. by eauto. }
    rewrite (Hfull "recordCreates"), (Hfull "recordUpdates"),
      (Hfull "recordDeletes") by done. lia.
Qed.

Lemma fault_path_count_witness :
  _count_dml_with_fault_paths MoreDocs.one_fault_path
  ≠ _count_dml_operations MoreDocs.one_fault_path.
Proof.
  intros Heq.
  pose proof (proj1 (proj2 (fault_path_count MoreDocs.one_fault_path)) Heq
                "recordUpdates" (Docs.node "recordUpdates" "W2" [])
                eq_refl) as Hall.
  assert (has_fault_connector (Docs.node "recordUpdates" "W2" []) = true)
    as Hfault.
  { apply Hall. vm_compute. left. }
  vm_compute in Hfault. discriminate Hfault.
Defined.

(** X9: the lookups reported as lacking a null check are the first names of
    the record lookups in document order, as many as there are more lookups
    than decisions; with at least as many decisions as lookups nothing is
    reported.  A lookup without name element is listed as [Unknown]. *)
Theorem null_check_report root :
  length (_get_lookups_without_null_check root)
  = _count_elements root "recordLookups" - _count_elements root "decisions"
  ∧ _get_lookups_without_null_check root
      `prefix_of` (element_name <$> findall_desc "recordLookups" root).
Proof.
  unfold _get_lookups_without_null_check, _count_elements.
  set (lookups := findall_desc "recordLookups" root).
  set (decisions := findall_desc "decisions" root).
  destruct (bool_decide (0 < length lookups)) eqn:Hpos; simpl.
  - destruct (bool_decide (length decisions < length lookups)) eqn:Hless; simpl.
    + apply bool_decide_eq_true in Hless. split.
      * rewrite length_take, length_fmap. lia.
      * apply prefix_take.
    + apply bool_decide_eq_false in Hless. split; [lia|]. apply prefix_nil.
  - apply bool_decide_eq_false in Hpos. split; [lia|]. apply prefix_nil.
Qed.

Example null_check_three_lookups :
  _get_lookups_without_null_check MoreDocs.three_lookups
  = [Some "Get_A"; Some "Get_B"].
Proof. by vm_compute. Qed.

Example unnamed_lookup_is_unknown :
  _get_lookups_without_filters MoreDocs.three_lookups
  = [Some "Get_A"; Some "Unknown"].
Proof. by vm_compute. Qed.

(** ** Scores *)

Lemma report_nil cond item : report cond item = [] ↔ cond = false.
Proof. by destruct cond. Qed.

(** X10: the logic and structure score lies between 0 and its maximum of 20,
    and it is 20 exactly when the category reports nothing: no critical
    issue, no warning and no advisory. *)
Theorem logic_score_range root :
  let result := _validate_logic_structure root in
  (0 ≤ logic_score result ≤ logic_max_score result)%Z
  ∧ logic_max_score result = 20%Z
  ∧ (logic_score result = 20%Z
     ↔ logic_critical_issues result = [] ∧ logic_warnings result = []
       ∧ logic_advisory result = []).
Proof.
  unfold _validate_logic_structure. simpl.
  destruct (_has_dml_in_loops root), (_has_soql_in_loops root),
    (_check_action_calls_in_loop root), (_has_formula_in_loops root),
    (bool_decide (5 < _count_elements root "decisions")),
    (_should_use_transform root && negb (_has_transform root));
    simpl; (split; [lia|]); (split; [done|]);
    (split; [intros ?; first [lia | done] | intros (? & ? & ?); done]).
Qed.

(** X11: a write inside a loop costs half of the logic and structure score:
    the score is at most 10 and the critical issue for writes in loops is
    reported. *)
Theorem dml_in_loop_halves_score root :
  _has_dml_in_loops root = true →
  (logic_score (_validate_logic_structure root) ≤ 10)%Z
  ∧ dml_in_loops_issue ∈ logic_critical_issues (_validate_logic_structure root).
Proof.
  intros Hdml. unfold _validate_logic_structure. simpl. rewrite Hdml. simpl.
  split; [|left].
  destruct (_has_soql_in_loops root), (_check_action_calls_in_loop root),
    (_has_formula_in_loops root),
    (bool_decide (5 < _count_elements root "decisions")),
    (_should_use_transform root && negb (_has_transform root)); simpl; lia.
Qed.

Lemma dml_in_loop_halves_score_witness :
  (logic_score (_validate_logic_structure Docs.two_loops_with_writes) ≤ 10)%Z.
Proof.
  apply (dml_in_loop_halves_score Docs.two_loops_with_writes). by vm_compute.
Defined.

(** ** Architecture *)


Lemma advisory_of_names (header suggestion : string) (names : list name)
    (findings : list entry) :
  match names with
  | [] => Some []
  | _ =>
      shown ← join_names (take 3 names);
      Some [[("category", "Clean Code");
             ("message", pretty (length names) +:+ header +:+ shown);
             ("suggestion", suggestion)]]
  end = Some findings →
  (findings = [] ↔ nonempty names = false).
Proof.
  destruct names as [|n names]; [by intros [= <-]|].
  destruct (join_names _); simpl; [|done]. by intros [= <-].
Qed.

(** X12: when the architecture category returns, its score lies between 0
    and its maximum of 15, it is 15 whenever the category has nothing to
    advise, and the list of recommendations is empty. *)
Theorem architecture_score_range re_findall_refs root result :
  _validate_architecture re_findall_refs root = Some result →
  (0 ≤ arch_score result ≤ arch_max_score result)%Z
  ∧ arch_max_score result = 15%Z
  ∧ (arch_advisory result = [] → arch_score result = 15%Z)
  ∧ arch_recommendations result = [].
Proof.
  unfold _validate_architecture.
  destruct (unused_variables_advisory re_findall_refs root) as [unused|] eqn:Hu;
    simpl; [|done].
  destruct (orphaned_elements_advisory root) as [orphaned|] eqn:Ho;
    simpl; [|done].
  apply advisory_of_names in Hu, Ho. intros [= <-].
  cbn [arch_score arch_max_score arch_advisory arch_recommendations].
  split; [|split; [done|split; [|done]]].
  - unfold deduct. repeat case_match; lia.
  - intros Hnil. repeat (apply app_eq_nil in Hnil as [? Hnil]).
    repeat match goal with
           | H : report _ _ = [] |- _ => apply report_nil in H; rewrite H
           end.
    assert (nonempty (_check_unused_variables re_findall_refs root) = false)
      as -> by by apply Hu.
    assert (nonempty (_check_unconnected_elements root) = false)
      as -> by by apply Ho.
    unfold deduct. lia.
Qed.

Lemma architecture_score_range_witness :
  ∃ result,
    _validate_architecture Re.findall_refs Docs.two_orphans = Some result
    ∧ (0 ≤ arch_score result ≤ 15)%Z.
Proof.
  eexists. split; [by vm_compute|].
  refine (proj1 (architecture_score_range Re.findall_refs Docs.two_orphans _ _)).
  by vm_compute.
Defined.



(** ** Triggers *)

(** X14: the recursive-update check fires on record-triggered flows only:
    whenever it answers [True], the flow is record-triggered and its
    trigger object is the one that the start element declares. *)
Theorem recursive_update_is_record_triggered root :
  _check_recursive_after_update root = true →
  _is_record_triggered_flow root = true
  ∧ ∃ start trigger_object,
      find_desc "start" root = Some start
      ∧ find ["object"] start = Some trigger_object
      ∧ _get_trigger_object root = text trigger_object.
Proof.
  unfold _check_recursive_after_update, _is_record_triggered_flow,
    _get_trigger_object.
  destruct (find_desc "start" root) as [start|]; [|done].
  destruct (find ["triggerType"] start) as [trigger_type|]; [|done].
  case_decide as Htype; [|done].
  destruct (find ["object"] start) as [trigger_object|] eqn:Hobject; [|done].
  intros _. rewrite Htype. split; [by vm_compute|].
  by exists start, trigger_object.
Qed.

Lemma recursive_update_is_record_triggered_witness :
  _is_record_triggered_flow (Docs.after_save [] [Docs.update_case]) = true.
Proof.
  apply (recursive_update_is_record_triggered
           (Docs.after_save [] [Docs.update_case])).
  by vm_compute.
Defined.

(** ** References to variables *)

Lemma before_dot_no_dot s :
  before_dot s = s ∨ ∃ rest, s = (before_dot s ++ "." ++ rest)%string.
Proof.
  induction s as [|c s IH]; simpl; [by left|].
  destruct (Ascii.eqb_spec c ".") as [->|Hc].
  - right. by exists s.
  - destruct IH as [->|[rest Hrest]]; [by left|].
    right. exists rest.
    change (String c s = String c (before_dot s ++ "." ++ rest)%string).
    by f_equal.
Qed.

(** X15: a variable counts as used as soon as one reference element
    ([elementReference], [inputReference], [outputReference] or [value])
    anywhere in the document has a text that is the variable's name or
    starts with the name followed by a dot; such a variable is not reported,
    whatever the formulas contain. *)
Theorem referenced_variable_not_reported re_findall_refs root t elem s :
  t ∈ reference_tags →
  elem ∈ findall_desc t root →
  text elem = Some s → s ≠ "" →
  (Some (before_dot s) ∉ _check_unused_variables re_findall_refs root)
  ∧ (before_dot s = s ∨ ∃ rest, s = (before_dot s ++ "." ++ rest)%string).
Proof.
  intros Ht Hin Htext Hs. split; [|apply before_dot_no_dot].
  unfold _check_unused_variables.
  rewrite elem_of_elements, elem_of_difference. intros [_ Hnot]. apply Hnot.
  unfold referenced_vars. apply elem_of_union_l, elem_of_list_to_set.
  apply list_elem_of_In, in_flat_map. exists t.
  rewrite <- !list_elem_of_In. split; [done|].
  unfold tag_references. apply list_elem_of_omap. exists elem.
  split; [done|]. rewrite Htext. simpl. by rewrite decide_False.
Qed.

Lemma referenced_variable_not_reported_witness :
  Some "A" ∉ _check_unused_variables Re.findall_refs Docs.three_variables.
Proof.
  refine (proj1 (referenced_variable_not_reported Re.findall_refs
                   Docs.three_variables "elementReference"
                   (Docs.leaf "elementReference" "A.Name") "A.Name" _ _ _ _)).
  - left.
  - vm_compute. left.
  - reflexivity.
  - discriminate.
Defined.

(** ** Writes between screens *)

Section Follow.

Context (element_map : gmap name (string * xml)).

Local Abbreviation follow fuel current visited :=
  (follow_connectors fuel current visited element_map).
Local Abbreviation unvisited := (unvisited element_map).
Local Abbreviation chain := (chain_to element_map).
Local Abbreviation next_of elem :=
  (text_or None (find ["connector"; "targetReference"] elem)).

(** The names that the loop appends for the element it stands on. *)
Local Abbreviation found_at elem_type elem :=
  (if is_dml elem_type
   then match find ["name"] elem with
        | Some n => [text n]
        | None => []
        end
   else []).

Lemma follow_connectors_S fuel current visited :
  follow (S fuel) current visited
  = match truthy current with
    | None => Some []
    | Some _ =>
        if decide (current ∈ visited) then Some []
        else match element_map !! current with
             | None => Some []
             | Some (elem_type, elem) =>
                 if bool_decide (elem_type = "screens") then Some []
                 else rest ← follow fuel (next_of elem) (visited ∪ {[current]});
                      Some (found_at elem_type elem ++ rest)
             end
    end.
Proof. reflexivity. Qed.

Lemma follow_connectors_is_Some fuel : ∀ current visited,
  size (unvisited visited) < fuel → is_Some (follow fuel current visited).
Proof.
  induction fuel as [|fuel IH]; intros current visited Hfuel; [lia|].
  rewrite follow_connectors_S.
  destruct (truthy current); [|by eexists].
  case_decide as Hvisited; [by eexists|].
  destruct (element_map !! current) as [[elem_type elem]|] eqn:Hcur;
    [|by eexists].
  case_bool_decide; [by eexists|].
  destruct (IH (next_of elem) (visited ∪ {[current]})) as [rest Hrest].
  { pose proof (unvisited_shrinks element_map visited current _ Hvisited Hcur).
    lia. }
  rewrite Hrest. by eexists.
Qed.

Lemma follow_connectors_more_fuel fuel : ∀ fuel' current visited l,
  fuel ≤ fuel' → follow fuel current visited = Some l →
  follow fuel' current visited = Some l.
Proof.
  induction fuel as [|fuel IH]; intros fuel' current visited l Hle; [done|].
  destruct fuel' as [|fuel']; [lia|]. rewrite !follow_connectors_S.
  destruct (truthy current); [|done]. case_decide; [done|].
  destruct (element_map !! current) as [[elem_type elem]|]; [|done].
  case_bool_decide; [done|].
  destruct (follow fuel _ _) as [rest|] eqn:Hrest; [|done].
  by rewrite (IH fuel' _ _ _ ltac:(lia) Hrest).
Qed.

Lemma run_follow_spec fuel current :
  size element_map < fuel →
  follow fuel current ∅ = Some (run_follow current element_map).
Proof.
  intros Hfuel. unfold run_follow.
  pose proof (unvisited_bound element_map ∅) as Hbound.
  destruct (follow_connectors_is_Some fuel current ∅ ltac:(lia)) as [l Hl].
  destruct (follow_connectors_is_Some (enough_fuel element_map) current ∅)
    as [l' Hl']; [unfold enough_fuel; lia|].
  rewrite Hl, Hl'. simpl. f_equal.
  assert (enough_fuel element_map ≤ fuel) as Hge by (unfold enough_fuel; lia).
  rewrite (follow_connectors_more_fuel _ _ _ _ _ Hge Hl') in Hl. congruence.
Qed.

Lemma chain_mono visited visited' j k k' :
  visited ⊆ visited' → chain visited' j k k' → chain visited j k k'.
Proof.
  intros Hsub Hchain. induction Hchain.
  - eapply chain_here; eauto.
  - eapply chain_step; eauto.
Qed.

Lemma chain_split x visited j k k' :
  chain visited j k k' →
  chain (visited ∪ {[x]}) j k k' ∨ ∃ j', j' ≤ j ∧ chain visited j' x k'.
Proof.
  intros Hchain.
  induction Hchain as [k ty e Ht Hv Hm Hs|j k ty e k' Ht Hv Hm Hs Hrest IH].
  - destruct (decide (k = x)) as [->|Hne].
    + right. exists 0. split; [lia|]. eapply chain_here; eauto.
    + left. eapply chain_here; eauto. set_solver.
  - destruct (decide (k = x)) as [->|Hne].
    + right. exists (S j). split; [lia|]. eapply chain_step; eauto.
    + destruct IH as [IH|(j' & Hj' & IH)].
      * left. eapply chain_step; eauto. set_solver.
      * right. exists j'. split; [lia | done].
Qed.

Lemma follow_connectors_sound fuel : ∀ current visited l n,
  follow fuel current visited = Some l → n ∈ l →
  write_on_chain element_map visited current n.
Proof.
  induction fuel as [|fuel IH]; intros current visited l n; [done|].
  rewrite follow_connectors_S.
  destruct (truthy current) as [s|] eqn:Htruthy;
    [|intros [= <-] Hn; by apply elem_of_nil in Hn].
  case_decide as Hvisited; [intros [= <-] Hn; by apply elem_of_nil in Hn|].
  destruct (element_map !! current) as [[elem_type elem]|] eqn:Hcur;
    [|intros [= <-] Hn; by apply elem_of_nil in Hn].
  case_bool_decide as Hscreen;
    [intros [= <-] Hn; by apply elem_of_nil in Hn|].
  destruct (follow fuel _ _) as [rest|] eqn:Hrest; simpl; [|done].
  intros [= <-] [Hhere|Hlater]%elem_of_app.
  - destruct (is_dml elem_type) eqn:Hdml; [|by apply elem_of_nil in Hhere].
    destruct (find ["name"] elem) as [name_elem|] eqn:Hname;
      [|by apply elem_of_nil in Hhere].
    apply list_elem_of_singleton in Hhere as ->.
    exists 0, current, elem_type, elem, name_elem.
    repeat split; try done. eapply chain_here; eauto.
  - destruct (IH _ _ _ _ Hrest Hlater)
      as (j & key & ty & e & nm & Hchain & Hkey & Hdml & Hname & Hn).
    exists (S j), key, ty, e, nm. repeat split; try done.
    eapply chain_step; eauto. eapply chain_mono; [|done]. set_solver.
Qed.

Lemma follow_connectors_complete j : ∀ fuel current visited key elem_type elem
    name_elem l,
  size (unvisited visited) < fuel →
  chain visited j current key →
  element_map !! key = Some (elem_type, elem) →
  is_dml elem_type = true →
  find ["name"] elem = Some name_elem →
  follow fuel current visited = Some l →
  text name_elem ∈ l.
Proof.
  induction (lt_wf j) as [j _ IH].
  intros fuel current visited key elem_type elem name_elem l
         Hfuel Hchain Hkey Hdml Hname Hl.
  destruct fuel as [|fuel]; [lia|].
  inversion Hchain as [k ty e Ht Hv Hm Hs|j' k ty e k' Ht Hv Hm Hs Hrest]; subst.
  - rewrite follow_connectors_S in Hl. destruct Ht as [s Htruthy].
    rewrite Htruthy, decide_False, Hm, bool_decide_eq_false_2 in Hl by done.
    rewrite Hkey in Hm. injection Hm as <- <-.
    destruct (follow fuel _ _) as [rest|]; simpl in Hl; [|done].
    injection Hl as <-. rewrite Hdml, Hname. apply elem_of_app. left. left.
  - destruct (chain_split current _ _ _ _ Hrest) as [Havoid|(j'' & Hj'' & Hback)].
    + rewrite follow_connectors_S in Hl. destruct Ht as [s Htruthy].
      rewrite Htruthy, decide_False, Hm, bool_decide_eq_false_2 in Hl by done.
      destruct (follow fuel _ _) as [rest|] eqn:Hfollow; simpl in Hl; [|done].
      injection Hl as <-. apply elem_of_app. right.
      pose proof (unvisited_shrinks element_map visited current _ Hv Hm).
      eapply (IH j'); [lia| |done..]. lia.
    + eapply (IH j''); [lia|done..].
Qed.

End Follow.

(** X16: following the connectors after a screen always comes to an end,
    also when the connectors run in a circle: with one unit of fuel per
    entry of the element map, plus one, the loop returns its list, and more
    fuel gives the same list. *)
Theorem follow_connectors_terminates
    (element_map : gmap name (string * xml)) (current : name) :
  ∃ l, ∀ extra,
    follow_connectors (enough_fuel element_map + extra) current ∅ element_map
    = Some l.
Proof.
  exists (run_follow current element_map). intros extra.
  apply run_follow_spec. unfold enough_fuel. lia.
Qed.

Example write_cycle_terminates :
  run_follow (Some "W") (_build_element_map MoreDocs.write_cycle_after_screen)
  = [Some "W"].
Proof. by vm_compute. Qed.

(** X17: what the walk after a screen collects.  A name is collected exactly
    when it is the name of a create, update or delete element that lies on
    the chain of standard connectors from the start, where the chain ends
    before the first screen, unknown name, empty target or repeated
    element. *)
Theorem run_follow_collects
    (element_map : gmap name (string * xml)) (start n : name) :
  n ∈ run_follow start element_map ↔ write_on_chain element_map ∅ start n.
Proof.
  pose proof (run_follow_spec element_map (enough_fuel element_map) start
                ltac:(unfold enough_fuel; lia)) as Hspec.
  split.
  - intros Hn. by eapply follow_connectors_sound.
  - intros (j & key & elem_type & elem & name_elem
            & Hchain & Hkey & Hdml & Hname & <-).
    eapply follow_connectors_complete; [|done..].
    pose proof (unvisited_bound element_map ∅). unfold enough_fuel. lia.
Qed.

(** X18: the check for writes between screens.  With fewer than two screens
    it reports nothing.  Otherwise it reports, each once, the names of the
    write elements on the chain of standard connectors that starts at the
    connector target of some named screen and ends before the next screen,
    or where the chain ends when no screen follows. *)
Theorem dml_between_screens_report root :
  (length (findall_desc "screens" root) < 2 →
   _check_duplicate_dml_between_screens root = [])
  ∧ NoDup (_check_duplicate_dml_between_screens root)
  ∧ (2 ≤ length (findall_desc "screens" root) →
     ∀ n, n ∈ _check_duplicate_dml_between_screens root
          ↔ ∃ screen connector,
              screen ∈ findall_desc "screens" root
              ∧ is_Some (find ["name"] screen)
              ∧ find ["connector"; "targetReference"] screen = Some connector
              ∧ write_on_chain (_build_element_map root) ∅ (text connector) n).
Proof.
  unfold _check_duplicate_dml_between_screens.
  split; [|split].
  - intros Hfew. by rewrite bool_decide_eq_true_2.
  - case_bool_decide; [apply NoDup_nil_2 | apply NoDup_elements].
  - intros Hmany n. rewrite bool_decide_eq_false_2 by lia.
    rewrite elem_of_elements, elem_of_list_to_set, list_elem_of_In, in_flat_map.
    split.
    + intros (screen & Hin & Hn). apply list_elem_of_In in Hin, Hn.
      unfold after_screen in Hn.
      destruct (find ["name"] screen) eqn:Hname; [|by apply elem_of_nil in Hn].
      destruct (find ["connector"; "targetReference"] screen) as [connector|]
        eqn:Hconn; [|by apply elem_of_nil in Hn].
      exists screen, connector. rewrite Hname. repeat split; eauto.
      eapply (follow_connectors_sound _ (enough_fuel (_build_element_map root)));
        [|done].
      apply run_follow_spec. unfold enough_fuel. lia.
    + intros (screen & connector & Hin & [? Hname] & Hconn & Hn).
      exists screen. rewrite <- !list_elem_of_In. split; [done|].
      unfold after_screen. rewrite Hname, Hconn.
      destruct Hn as (j & key & elem_type & elem & name_elem
                      & Hchain & Hkey & Hdml & Hfind & <-).
      eapply (follow_connectors_complete _ _
                (enough_fuel (_build_element_map root))); [|done..| ].
      * pose proof (unvisited_bound (_build_element_map root) ∅).
        unfold enough_fuel. lia.
      * apply run_follow_spec. unfold enough_fuel. lia.
Qed.

Lemma dml_between_screens_report_witness :
  _check_duplicate_dml_between_screens
    (Docs.flow [ Docs.node "screens" "S1" [Docs.conn "connector" "W"];
                 Docs.node "recordCreates" "W" [] ]) = [].
Proof.
  apply (dml_between_screens_report
           (Docs.flow [ Docs.node "screens" "S1" [Docs.conn "connector" "W"];
                        Docs.node "recordCreates" "W" [] ])).
  vm_compute. lia.
Defined.

Example writes_around_screen_report :
  _check_duplicate_dml_between_screens MoreDocs.writes_around_screen
  ≡ₚ [Some "W1"; Some "W2"].
Proof. by vm_compute. Qed.

(** ** Hardcoded identifiers and addresses *)


(** The identifier sits in a value below the assignment [Set_Owner]; the
    report does not name the assignment. *)
Example identifier_below_assignment :
  _check_hardcoded_ids
    (fun s => if String.prefix "005" s then ["005"] else [])
    MoreDocs.with_identifier
  = [Some "Unknown element"].
Proof. by vm_compute. Qed.

(** ** Names without text *)

(** X20: an element whose name element has no text cannot be connected to:
    connector targets without text are skipped, so unless the start
    connector itself has a target without text, the missing name is
    reported as an orphan. *)
Theorem nameless_element_is_orphan root :
  None ∈ all_elements root →
  None ∉ start_target root →
  None ∈ _check_unconnected_elements root.
Proof.
  intros Hnamed Hstart. unfold _check_unconnected_elements.
  apply elem_of_elements, elem_of_difference. split; [done|].
  unfold connected_elements. rewrite elem_of_union. intros [Hs|Ht]; [done|].
  unfold connector_targets in Ht.
  apply elem_of_list_to_set, list_elem_of_omap in Ht as (connector & _ & Ht).
  by destruct (truthy (text connector)).
Qed.

Lemma nameless_element_is_orphan_witness :
  None ∈ _check_unconnected_elements
           (Docs.flow [ Element "assignments" None [Element "name" None []];
                        Docs.conn "connector" "" ]).
Proof.
  apply nameless_element_is_orphan.
  - apply (bool_decide_unpack _). by vm_compute.
  - apply (bool_decide_unpack _). by vm_compute.
Defined.
